(** * Writeback scheduler of the store cache (package storecache)

    A shallow embedding of the writeback queue: the parallelism
    controller ([parallelism], with [ok], [add], [success], [failure]),
    the scheduler's event handling and dispatch pass, the writer's
    [writeback], and the persistence bridge ([requestWriteback],
    [enqueueWritebackFile]). *)

From stdpp Require Import base gmap list strings fin_maps.
From Stdlib Require Import ZArith Lia String Ascii.

Local Open Scope Z_scope.

(** ** Machine integers

    The counters of [parallelism] are Go [int]s: two's complement, 64 bits
    on the platforms the cache runs on.  Arithmetic wraps around. *)

Definition int_bits : Z := 64.
Definition min_int : Z := - 2 ^ (int_bits - 1).
Definition max_int : Z := 2 ^ (int_bits - 1) - 1.

Definition int_wrap (z : Z) : Z :=
  (z + 2 ^ (int_bits - 1)) mod 2 ^ int_bits - 2 ^ (int_bits - 1).

Definition int_add (a b : Z) : Z := int_wrap (a + b).
Definition int_sub (a b : Z) : Z := int_wrap (a - b).
(* Go's integer division truncates toward zero. *)
Definition int_div (a b : Z) : Z := int_wrap (Z.quot a b).

Definition in_int (z : Z) : Prop := min_int <= z <= max_int.

(** ** Constants *)

(* Number of writer goroutines to start. *)
Definition writers : Z := 20.
(* Initial maximum number of parallel writebacks. *)
Definition initialMaxParallel : Z := 6.
(* Terminating characters for writeback link names. *)
Definition writebackSuffix : string := "_wbf".

(** ** Errors and strings

    A Go [error] is used by this code only through its message
    ([err.Error()]) and the nil test: an error is its message, and
    [option error] is a possibly-nil error. *)

Definition error : Type := string.

(* strings.HasPrefix: len(s) >= len(prefix) && s[:len(prefix)] == prefix *)
Definition HasPrefix (s prefix : string) : bool :=
  (String.length prefix <=? String.length s)%nat
  && String.eqb (substring 0 (String.length prefix) s) prefix.

(* strings.HasSuffix:
   len(s) >= len(suffix) && s[len(s)-len(suffix):] == suffix *)
Definition HasSuffix (s suffix : string) : bool :=
  (String.length suffix <=? String.length s)%nat
  && String.eqb
       (substring (String.length s - String.length suffix)
          (String.length suffix) s)
       suffix.

(* strings.TrimPrefix *)
Definition TrimPrefix (s prefix : string) : string :=
  if HasPrefix s prefix
  then substring (String.length prefix)
         (String.length s - String.length prefix) s
  else s.

(* strings.TrimSuffix *)
Definition TrimSuffix (s suffix : string) : string :=
  if HasSuffix s suffix
  then substring 0 (String.length s - String.length suffix) s
  else s.

(* strings.Contains: [substr] starts at some position of [s]. *)
Fixpoint Contains (s substr : string) : bool :=
  HasPrefix s substr ||
  match s with
  | EmptyString => false
  | String _ s' => Contains s' substr
  end.

(* strings.Split for a separator of one byte: the pieces between the
   separators, one more than there are separators. *)
Fixpoint Split (s : string) (sep : ascii) : list string :=
  match s with
  | EmptyString => [EmptyString]
  | String c s' =>
      if Ascii.eqb c sep then EmptyString :: Split s' sep
      else match Split s' sep with
           | x :: xs => String c x :: xs
           | [] => [String c EmptyString]
           end
  end.

(* isTimeout returns true if this was the result of a server timeout. *)
Definition isTimeout (err : error) : bool :=
  let estr := err in
  Contains estr "timeout" || Contains estr "400".

(** ** The parallelism controller *)

Record parallelism : Type := mkParallelism {
  (* the number of writebacks being performed in parallel *)
  inFlight : Z;
  (* no new requests are started unless inFlight is less than max *)
  max : Z;
  (* error free requests since the last timeout or change of max *)
  successes : Z
}.

Definition newParallelism (m : Z) : parallelism :=
  let m := if m <? 1 then 1 else m in
  {| inFlight := 0; max := m; successes := 0 |}.

Definition ok (p : parallelism) : bool := inFlight p <? max p.

Definition add (p : parallelism) : parallelism :=
  {| inFlight := int_add (inFlight p) 1; max := max p; successes := successes p |}.

(* failure is called when a writeback fails.  It returns true if it has
   dealt with the error. *)
Definition failure (p : parallelism) (err : error) : bool * parallelism :=
  let p := {| inFlight := int_sub (inFlight p) 1; max := max p;
              successes := successes p |} in
  if negb (isTimeout err) then (false, p)
  else
    let p := {| inFlight := inFlight p; max := max p; successes := 0 |} in
    if inFlight p >=? max p then (true, p)
    else
      (true, {| inFlight := inFlight p;
                max := int_div (int_add (max p) 1) 2;
                successes := successes p |}).

(* success is called whenever a writeback succeeds. *)
Definition success (p : parallelism) : parallelism :=
  let p := {| inFlight := int_sub (inFlight p) 1; max := max p;
              successes := successes p |} in
  if int_add (inFlight p) 1 <? max p then p
  else
    let p := {| inFlight := inFlight p; max := max p;
                successes := int_add (successes p) 1 |} in
    if max p =? writers then p
    else if successes p >=? max p then
      {| inFlight := inFlight p; max := int_add (max p) 1; successes := 0 |}
    else p.

(** ** Data model *)

(** Modelled from the spec: the types [upspin.Reference], [upspin.Endpoint]
    and [upspin.Location] are declared outside this package.  A reference is
    an opaque string; an endpoint is a transport tag with a network address,
    equal iff both fields are; a location is the pair of the two. *)
Definition Reference : Type := string.

Record Endpoint : Type := mkEndpoint {
  Transport : N;
  NetAddr : string
}.

Record Location : Type := mkLocation {
  LocEndpoint : Endpoint;
  LocReference : Reference
}.

#[global] Instance Endpoint_eq_dec : EqDecision Endpoint.
Proof. solve_decision. Defined.

#[global] Instance Endpoint_countable : Countable Endpoint.
Proof.
  refine (inj_countable' (λ e, (Transport e, NetAddr e))
            (λ '(t, a), mkEndpoint t a) _).
  by intros [].
Defined.

#[global] Instance Location_eq_dec : EqDecision Location.
Proof. solve_decision. Defined.

#[global] Instance Location_countable : Countable Location.
Proof.
  refine (inj_countable' (λ l, (LocEndpoint l, LocReference l))
            (λ '(e, r), mkLocation e r) _).
  by intros [].
Defined.

(* Addresses of request objects, and flush channels. *)
Definition ptr : Type := nat.
Definition chan : Type := nat.

(* request represents a request to writeback a block. *)
Record request : Type := mkRequest {
  Loc : Location;
  err : option error;        (* the result of the Put() to the StoreServer *)
  flushChans : list chan     (* each flusher waits for its chan to close *)
}.

(* the values for endpointQueue.state *)
Inductive qstate : Type := unknown | live | dead.

Definition is_dead (st : qstate) : bool :=
  match st with dead => true | _ => false end.

Definition is_unknown (st : qstate) : bool :=
  match st with unknown => true | _ => false end.

(* endpointQueue represents a queue of pending requests destined for an
   endpoint. *)
Record endpointQueue : Type := mkQueue {
  queue : list ptr;          (* references waiting for writeback *)
  state : qstate
}.

(** The state the scheduler goroutine owns, with what it exchanges with
    the other goroutines.  Requests are shared objects: the index, the
    queues and the writers hold their addresses, and [heap] maps an
    address to the object.  An endpoint's queue object is created once and
    never replaced, so the endpoint stands for the address of its queue. *)
Record sched : Type := mkSched {
  heap : gmap ptr request;
  (* byEndpoint contains references to be written back *)
  byEndpoint : gmap Endpoint endpointQueue;
  (* all queued writeback requests *)
  queued : gmap Location ptr;
  (* requests sent on [ready] whose completion has not yet been received
     from [done] *)
  dispatched : list ptr;
  (* flush channels closed so far, oldest first *)
  closed : list chan;
  (* retry timers armed by time.AfterFunc and not yet received from [retry] *)
  timers : list Endpoint;
  (* the scheduler's parallelism controller [p] *)
  par : parallelism;
  (* the scheduler has sent on [terminated] and returned *)
  terminated : bool
}.

Definition set_heap (h : gmap ptr request) (s : sched) : sched :=
  mkSched h (byEndpoint s) (queued s) (dispatched s) (closed s) (timers s)
    (par s) (terminated s).
Definition set_byEndpoint (m : gmap Endpoint endpointQueue) (s : sched) : sched :=
  mkSched (heap s) m (queued s) (dispatched s) (closed s) (timers s)
    (par s) (terminated s).
Definition set_queued (m : gmap Location ptr) (s : sched) : sched :=
  mkSched (heap s) (byEndpoint s) m (dispatched s) (closed s) (timers s)
    (par s) (terminated s).
Definition set_dispatched (l : list ptr) (s : sched) : sched :=
  mkSched (heap s) (byEndpoint s) (queued s) l (closed s) (timers s)
    (par s) (terminated s).
Definition set_closed (l : list chan) (s : sched) : sched :=
  mkSched (heap s) (byEndpoint s) (queued s) (dispatched s) l (timers s)
    (par s) (terminated s).
Definition set_timers (l : list Endpoint) (s : sched) : sched :=
  mkSched (heap s) (byEndpoint s) (queued s) (dispatched s) (closed s) l
    (par s) (terminated s).
Definition set_par (p : parallelism) (s : sched) : sched :=
  mkSched (heap s) (byEndpoint s) (queued s) (dispatched s) (closed s)
    (timers s) p (terminated s).
Definition set_terminated (b : bool) (s : sched) : sched :=
  mkSched (heap s) (byEndpoint s) (queued s) (dispatched s) (closed s)
    (timers s) (par s) b.

(* The state [scheduler] starts from: empty maps, newParallelism. *)
Definition init : sched :=
  mkSched ∅ ∅ ∅ [] [] [] (newParallelism initialMaxParallel) false.

(* Removes the first occurrence: a receive takes one message. *)
Fixpoint remove1 {A} `{EqDecision A} (x : A) (l : list A) : list A :=
  match l with
  | [] => []
  | y :: l' => if decide (x = y) then l' else y :: remove1 x l'
  end.

(** ** The scheduler

    One case of the scheduler's [select] per event.  A handler returns
    [None] where the Go code would dereference a nil pointer. *)

Inductive event : Type :=
  | EvRequest (r : ptr)                    (* r := <-wbq.request *)
  | EvDone (r : ptr)                       (* r := <-wbq.done *)
  | EvRetry (e : Endpoint)                 (* epq := <-wbq.retry *)
  | EvFlush (loc : Location) (c : chan)    (* fr := <-wbq.flushRequest *)
  | EvDie.                                 (* <-wbq.die *)

(* case r := <-wbq.request *)
Definition on_request (r : ptr) (s : sched) : option sched :=
  req ← heap s !! r;
  match queued s !! Loc req with
  | Some _ =>
      (* Already queued. Unusual but OK. *)
      Some s
  | None =>
      let s := set_queued (<[Loc req := r]> (queued s)) s in
      let e := LocEndpoint (Loc req) in
      (* New endpoints start in unknown state. *)
      let epq := default (mkQueue [] unknown) (byEndpoint s !! e) in
      Some (set_byEndpoint
              (<[e := mkQueue (queue epq ++ [r]) (state epq)]> (byEndpoint s)) s)
  end.

(* case r := <-wbq.done *)
Definition on_done (r : ptr) (s : sched) : option sched :=
  let s := set_dispatched (remove1 r (dispatched s)) s in
  req ← heap s !! r;
  let e := LocEndpoint (Loc req) in
  epq ← byEndpoint s !! e;
  match err req with
  | Some er =>
      let epq := mkQueue (queue epq ++ [r]) (state epq) in
      let '(dealt, p) := failure (par s) er in
      let s := set_par p s in
      if dealt then
        (* The error has been dealt with *)
        Some (set_byEndpoint (<[e := epq]> (byEndpoint s)) s)
      else if is_dead (state epq) then
        Some (set_byEndpoint (<[e := epq]> (byEndpoint s)) s)
      else
        (* Mark endpoint as dead so we don't waste time trying.  Retry
           after retryInterval. *)
        Some (set_timers (timers s ++ [e])
                (set_byEndpoint
                   (<[e := mkQueue (queue epq) dead]> (byEndpoint s)) s))
  | None =>
      (* Mark endpoint as live so we can queue more requests for it. *)
      let s := set_byEndpoint (<[e := mkQueue (queue epq) live]> (byEndpoint s)) s in
      let s := set_par (success (par s)) s in
      (* Awaken everyone waiting for a flush. *)
      let s := set_closed (closed s ++ flushChans req) s in
      Some (set_queued (delete (Loc req) (queued s)) s)
  end.

(* case epq := <-wbq.retry *)
Definition on_retry (e : Endpoint) (s : sched) : option sched :=
  let s := set_timers (remove1 e (timers s)) s in
  epq ← byEndpoint s !! e;
  (* Set its state to unknown so we'll try a single request to feel it out. *)
  if is_dead (state epq)
  then Some (set_byEndpoint (<[e := mkQueue (queue epq) unknown]> (byEndpoint s)) s)
  else Some s.

(* case fr := <-wbq.flushRequest *)
Definition on_flush (loc : Location) (c : chan) (s : sched) : option sched :=
  match queued s !! loc with
  | None =>
      (* Not in flight *)
      Some (set_closed (closed s ++ [c]) s)
  | Some r =>
      req ← heap s !! r;
      (* Could be multiple outstanding flush requests. *)
      Some (set_heap
              (<[r := mkRequest (Loc req) (err req) (flushChans req ++ [c])]>
                 (heap s)) s)
  end.

Definition handle (ev : event) (s : sched) : option sched :=
  match ev with
  | EvRequest r => on_request r s
  | EvDone r => on_done r s
  | EvRetry e => on_retry e s
  | EvFlush loc c => on_flush loc c s
  | EvDie => Some (set_terminated true s)
  end.

(** One pass of [pickAndQueue] visits the keys of [byEndpoint] in the order
    the map iteration yields them; a send on [ready] goes through when the
    channel has room.  A [sweep] lists the endpoints in the order visited,
    each with whether [ready] has room at that moment. *)
Definition sweep : Type := list (Endpoint * bool).

Fixpoint pickAndQueue (sw : sweep) (sent : bool) (s : sched) : bool * sched :=
  match sw with
  | [] => (sent, s)
  | (e, room) :: sw' =>
      if negb (ok (par s)) then
        (* Already at the max parallel requests. *)
        (false, s)
      else
        match byEndpoint s !! e with
        | None => pickAndQueue sw' sent s
        | Some q =>
            if is_dead (state q) then pickAndQueue sw' sent s
            else
              match queue q with
              | [] => pickAndQueue sw' sent s
              | r :: rest =>
                  if room then
                    let q' :=
                      (* Once we send a request for an unknown endpoint
                         assume it is dead until the request terminates
                         and tells us otherwise. *)
                      mkQueue rest (if is_unknown (state q) then dead else state q) in
                    let s := set_dispatched (dispatched s ++ [r]) s in
                    let s := set_byEndpoint (<[e := q']> (byEndpoint s)) s in
                    let s := set_par (add (par s)) s in
                    pickAndQueue sw' true s
                  else
                    (* Queue full. *)
                    (false, s)
              end
        end
  end.

(* Fill the ready queue: sweep until a sweep finds nothing to do.  The
   list gives the sweeps in turn; [None] when it is used up before the
   loop ends. *)
Fixpoint fill (sws : list sweep) (s : sched) : option sched :=
  match sws with
  | [] => None
  | sw :: sws' =>
      let '(sent, s') := pickAndQueue sw false s in
      if sent then fill sws' s' else Some s'
  end.

(* One turn of the scheduler's loop. *)
Definition scheduler_step (ev : event) (sws : list sweep) (s : sched) : option sched :=
  match ev with
  | EvDie => handle ev s
  | _ => s' ← handle ev s; fill sws s'
  end.

(* A sweep visits every key of the map once. *)
Definition sweep_ok (s : sched) (sw : sweep) : Prop :=
  NoDup sw.*1 ∧ list_to_set sw.*1 =@{gset Endpoint} dom (byEndpoint s).

(* Requests waiting in the queues. *)
Definition pending (s : sched) : nat :=
  map_fold (λ _ q n, (List.length (queue q) + n)%nat) 0%nat (byEndpoint s).

(** ** The environment of the scheduler

    What the other goroutines do to the state the scheduler reads. *)

(* A client allocates [&request{loc, nil, nil}] at address [r] before it
   sends the address on [request]. *)
Definition new_request (r : ptr) (loc : Location) (s : sched) : sched :=
  set_heap (<[r := mkRequest loc None []]> (heap s)) s.

(* A writer stores the result of [writeback] in [r.err] before it sends
   [r] on [done]. *)
Definition set_err (r : ptr) (e : option error) (s : sched) : sched :=
  set_heap (alter (λ req, mkRequest (Loc req) e (flushChans req)) r (heap s)) s.

(* [flush] makes a new channel for every call. *)
Definition fresh_chan (c : chan) (s : sched) : Prop :=
  (c ∉ closed s) ∧ map_Forall (λ _ req, c ∉ flushChans req) (heap s).

(** What happens between two turns of the scheduler's loop, with the event
    the scheduler then receives. *)
Inductive action : Type :=
  | Submit (r : ptr) (loc : Location)       (* a client submits a request *)
  | Complete (r : ptr) (e : option error)   (* a writer reports a result *)
  | Retry (e : Endpoint)                    (* a retry timer fires *)
  | Flush (loc : Location) (c : chan)       (* a client asks for a flush *)
  | Die.                                    (* [close] closes [wbq.die] *)

Definition prepare (a : action) (s : sched) : sched :=
  match a with
  | Submit r loc => new_request r loc s
  | Complete r e => set_err r e s
  | _ => s
  end.

Definition event_of (a : action) : event :=
  match a with
  | Submit r _ => EvRequest r
  | Complete r _ => EvDone r
  | Retry e => EvRetry e
  | Flush loc c => EvFlush loc c
  | Die => EvDie
  end.

(* A request is allocated at a new address, a completion arrives only for
   a request that was dispatched, a retry only from an armed timer, and a
   flush brings a new channel. *)
Definition enabled (a : action) (s : sched) : Prop :=
  terminated s = false
  ∧ match a with
    | Submit r _ => heap s !! r = None
    | Complete r _ => r ∈ dispatched s
    | Retry e => e ∈ timers s
    | Flush _ c => fresh_chan c s
    | Die => True
    end.

(* The sweeps of the dispatch pass each visit the keys of the map as it
   is after the event. *)
Definition sweeps_valid (a : action) (sws : list sweep) (s : sched) : Prop :=
  ∀ s1, handle (event_of a) (prepare a s) = Some s1 → Forall (sweep_ok s1) sws.

Definition turn (a : action) (sws : list sweep) (s : sched) : option sched :=
  scheduler_step (event_of a) sws (prepare a s).

(** The states of the scheduler's loop: from [init], one turn at a time. *)
Inductive reachable : sched → Prop :=
  | reach_init : reachable init
  | reach_turn s a sws s' :
      reachable s → enabled a s → sweeps_valid a sws s →
      turn a sws s = Some s' →
      reachable s'.


(* A run of turns. *)
Fixpoint run (l : list (action * list sweep)) (s : sched) : option sched :=
  match l with
  | [] => Some s
  | (a, sws) :: l' => s' ← turn a sws s; run l' s'
  end.

#[global] Instance request_eq_dec : EqDecision request.
Proof. solve_decision. Defined.

#[global] Instance enabled_dec (a : action) (s : sched) : Decision (enabled a s).
Proof. unfold enabled, fresh_chan. destruct a; apply _. Defined.

#[global] Instance sweep_ok_dec (s : sched) (sw : sweep) : Decision (sweep_ok s sw).
Proof. unfold sweep_ok. apply _. Defined.

(* Every turn of the run is enabled, its sweeps are valid, and the
   dispatch pass ends within them. *)
Fixpoint run_check (l : list (action * list sweep)) (s : sched) : bool :=
  match l with
  | [] => true
  | (a, sws) :: l' =>
      bool_decide (enabled a s)
      && match handle (event_of a) (prepare a s) with
         | Some s1 => forallb (λ sw, bool_decide (sweep_ok s1 sw)) sws
         | None => true
         end
      && match turn a sws s with
         | Some s' => run_check l' s'
         | None => false
         end
  end.

(** ** The cache directory

    Modelled from the spec: the cache directory is a map from paths to
    the bytes stored there; [readFromCacheFile], [os.Link] and [os.Remove]
    are not part of this file.  Reading a path that is absent fails with
    not-found; linking fails when the old path is absent or the new one
    exists; a hard link is a second path to the same bytes.  A read or a
    remove of a path that is there can fail as well (the entry cannot be
    opened, permissions, an I/O error): [os_faults] says for which paths,
    and with what error. *)
Definition bytes : Type := list Byte.byte.

Record os_faults : Type := mkFaults {
  read_fault : string → option error;
  remove_fault : string → option error
}.

(* A directory on which every read and remove of a present path goes
   through. *)
Definition no_faults : os_faults := mkFaults (λ _, None) (λ _, None).

Definition readFromCacheFile (flt : os_faults) (fs : gmap string bytes)
    (file : string) : bytes + error :=
  match fs !! file with
  | Some data =>
      match read_fault flt file with
      | Some e => inr e
      | None => inl data
      end
  | None => inr ("open " +:+ file +:+ ": no such file or directory")
  end.

Definition os_Link (fs : gmap string bytes) (oldname newname : string)
  : gmap string bytes + error :=
  match fs !! oldname with
  | None =>
      inr ("link " +:+ oldname +:+ " " +:+ newname +:+ ": no such file or directory")
  | Some data =>
      match fs !! newname with
      | Some _ =>
          inr ("link " +:+ oldname +:+ " " +:+ newname +:+ ": file exists")
      | None => inl (<[newname := data]> fs)
      end
  end.

Definition os_Remove (flt : os_faults) (fs : gmap string bytes) (name : string)
  : gmap string bytes * option error :=
  match fs !! name with
  | Some _ =>
      match remove_fault flt name with
      | Some e => (fs, Some e)
      | None => (delete name fs, None)
      end
  | None => (fs, Some ("remove " +:+ name +:+ ": no such file or directory"))
  end.

(* Of the store cache [wbq.sc] this file reads the directory name. *)
Record storeCache : Type := mkStoreCache { dir : string }.

Section Bridge.

(* wbq.sc.cachePath, upspin.ParseEndpoint, bind.StoreServer with the Put
   of the store it returns (the reference the server computed, or an
   error), and the quoting of [%q] in errors.Errorf. *)
Variable cachePath : Reference → Endpoint → string.
Variable ParseEndpoint : string → Endpoint + error.
Variable StoreServer : Endpoint → (bytes → Reference + error) + error.
Variable quote : string → string.
(* What fails in the cache directory. *)
Variable faults : os_faults.

(* enqueueWritebackFile populates the writeback queue on startup.  It
   returns true if this was indeed a write back file.  The receiver is
   nil when the cache runs as writethrough; the second component is the
   request sent on [wbq.request], if any. *)
Definition enqueueWritebackFile (wbq : option storeCache) (path : string)
  : bool * option request :=
  let f := TrimSuffix path writebackSuffix in
  if String.eqb f path then (false, None)
  else
    match wbq with
    | None => (true, None)
    | Some sc =>
        let f := TrimPrefix f (dir sc +:+ "/") in
        let elems := Split f "/" in
        match elems with
        | [e0; _; e2] =>
            match ParseEndpoint e0 with
            | inr _ => (true, None)
            | inl e =>
                (true, Some (mkRequest (mkLocation e e2) None []))
            end
        | _ => (true, None)
        end
    end.

(* writeback returns nil on success or not transient errors. *)
Definition writeback (fs : gmap string bytes) (r : request)
  : option error * gmap string bytes :=
  let file :=
    cachePath (LocReference (Loc r)) (LocEndpoint (Loc r)) +:+ writebackSuffix in
  match readFromCacheFile faults fs file with
  | inr _ =>
      (* Nothing we can do, log it but act like we succeeded. *)
      (None, fs)
  | inl data =>
      match StoreServer (LocEndpoint (Loc r)) with
      | inr e => (Some e, fs)
      | inl store =>
          match store data with
          | inr e => (Some e, fs)
          | inl ref =>
              if negb (String.eqb ref (LocReference (Loc r))) then
                (Some ("refdata mismatch expected "
                       +:+ quote (LocReference (Loc r))
                       +:+ " got " +:+ quote ref), fs)
              else
                (* a failing os.Remove is logged only *)
                (None, fst (os_Remove faults fs file))
          end
      end
  end.

(* The body of the writer's loop for the request at [r]. *)
Definition writer (fs : gmap string bytes) (r : ptr) (s : sched)
  : option (sched * gmap string bytes) :=
  req ← heap s !! r;
  let '(e, fs') := writeback fs (mkRequest (Loc req) None (flushChans req)) in
  Some (set_err r e s, fs').

(* requestWriteback makes a hard link to the cache file and sends a
   request to the scheduler queue.  The result is the error returned,
   the request sent on [wbq.request], if any, and the directory. *)
Definition requestWriteback (fs : gmap string bytes) (ref : Reference)
    (e : Endpoint) : option error * option request * gmap string bytes :=
  let cf := cachePath ref e in
  let wbf := cf +:+ writebackSuffix in
  match os_Link fs cf wbf with
  | inr err =>
      if Contains err "exists" then
        (* Someone else is already writing it back. *)
        (None, None, fs)
      else (Some err, None, fs)
  | inl fs' =>
      (None, Some (mkRequest (mkLocation e ref) None []), fs')
  end.

End Bridge.

(** ** Predicates of the statements *)

(* [sub] occurs in [s]. *)
Definition substring_of (sub s : string) : Prop :=
  ∃ a b, s = a +:+ sub +:+ b.

(* The counters are away from the ends of the [int] range, so that one
   increment or decrement does not wrap. *)
Definition no_wrap (p : parallelism) : Prop :=
  min_int < inFlight p <= max_int
  ∧ min_int <= max p < max_int
  ∧ min_int <= successes p < max_int.

(* [success] as the specification words it: the test for an under-loaded
   completion is taken on the counters at entry to the call. *)
Definition success_stated (p : parallelism) : parallelism :=
  if inFlight p + 1 <? max p then
    {| inFlight := inFlight p - 1; max := max p; successes := successes p |}
  else if max p =? writers then
    {| inFlight := inFlight p - 1; max := max p; successes := successes p + 1 |}
  else if successes p + 1 >=? max p then
    {| inFlight := inFlight p - 1; max := max p + 1; successes := 0 |}
  else
    {| inFlight := inFlight p - 1; max := max p; successes := successes p + 1 |}.

(* The completion arrives with [n] writebacks in flight. *)
Definition with_inFlight (n : Z) (p : parallelism) : parallelism :=
  {| inFlight := n; max := max p; successes := successes p |}.

(* A run of successful completions, the i-th arriving with load [loads_i]. *)
Fixpoint success_run (loads : list Z) (p : parallelism) : parallelism :=
  match loads with
  | [] => p
  | n :: loads' => success_run loads' (success (with_inFlight n p))
  end.

(* Every completion of the run counts: none arrives under-loaded. *)
Fixpoint all_counted (loads : list Z) (p : parallelism) : Prop :=
  match loads with
  | [] => True
  | n :: loads' =>
      max p <= n <= max_int ∧ all_counted loads' (success (with_inFlight n p))
  end.

(* No byte of [s] is the separator. *)
Fixpoint free_of (sep : ascii) (s : string) : Prop :=
  match s with
  | EmptyString => True
  | String c s' => c ≠ sep ∧ free_of sep s'
  end.

(* The pieces put back together, the separator between them. *)
Fixpoint Join (l : list string) (sep : ascii) : string :=
  match l with
  | [] => ""
  | [x] => x
  | x :: l' => x +:+ String sep (Join l' sep)
  end.

(* A stand-in for upspin.ParseEndpoint in the examples: it accepts
   "remote,<address>" and nothing else. *)
Definition parse_remote (s : string) : Endpoint + error :=
  if HasPrefix s "remote," then inl (mkEndpoint 3 (TrimPrefix s "remote,"))
  else inr ("unknown transport type in endpoint " +:+ s).

(** ** A run used in the examples

    One endpoint.  A first request is submitted, dispatched and written
    back, which leaves the endpoint LIVE; a second one is submitted and
    dispatched. *)
Definition ep1 : Endpoint := mkEndpoint 3 "store.example.com:443".
Definition loc1 : Location := mkLocation ep1 "r1".
Definition loc2 : Location := mkLocation ep1 "r2".

Definition run1 : list (action * list sweep) :=
  [ (Submit 1%nat loc1, [[(ep1, true)]; [(ep1, true)]]);
    (Complete 1%nat None, [[(ep1, true)]]);
    (Submit 2%nat loc2, [[(ep1, true)]; [(ep1, true)]]) ].

Definition live1 : sched := default init (run run1 init).

(* A flush for the second request arrives while it is being written. *)
Definition waiting1 : sched :=
  default init (run (run1 ++ [(Flush loc2 7%nat, [[(ep1, true)]])]) init).

(* Stand-ins for wbq.sc.cachePath and bind.StoreServer in the examples. *)
Definition cachePath1 (ref : Reference) (e : Endpoint) : string :=
  "/cache/remote," +:+ NetAddr e +:+ "/" +:+ ref.

Definition no_store (e : Endpoint) : (bytes → Reference + error) + error :=
  inr ("dial " +:+ NetAddr e +:+ ": connection refused").

(* The counters of the controller against the requests with the writers. *)
Definition par_inv (s : sched) : Prop :=
  inFlight (par s) = Z.of_nat (List.length (dispatched s))
  ∧ 1 <= max (par s) <= writers
  ∧ inFlight (par s) <= writers
  ∧ inFlight (par s) < 2 * max (par s).

(* Five more requests for the endpoint bring the load to the ceiling, 6;
   then the second request comes back with a timeout. *)
Definition run2 : list (action * list sweep) :=
  run1 ++
  [ (Submit 3%nat (mkLocation ep1 "r3"), [[(ep1, true)]; [(ep1, true)]]);
    (Submit 4%nat (mkLocation ep1 "r4"), [[(ep1, true)]; [(ep1, true)]]);
    (Submit 5%nat (mkLocation ep1 "r5"), [[(ep1, true)]; [(ep1, true)]]);
    (Submit 6%nat (mkLocation ep1 "r6"), [[(ep1, true)]; [(ep1, true)]]);
    (Submit 7%nat (mkLocation ep1 "r7"), [[(ep1, true)]; [(ep1, true)]]);
    (Complete 2%nat (Some "Put: timeout"), [[(ep1, true)]]) ].

Definition halved1 : sched := default init (run run2 init).

(** ** Invariants of the scheduler *)

(* The location of the request at [r]. *)
Definition loc_of (s : sched) (r : ptr) : option Location :=
  Loc <$> heap s !! r.

(* The flush channels waiting on the request at [r]. *)
Definition waiters (s : sched) (r : ptr) : list chan :=
  default [] (flushChans <$> heap s !! r).

(* The request at [r] waits in the queue of endpoint [e]. *)
Definition in_queue (s : sched) (e : Endpoint) (r : ptr) : Prop :=
  ∃ q, byEndpoint s !! e = Some q ∧ r ∈ queue q.

(* The request at [r] is in a queue or with the writers. *)
Definition held (s : sched) (r : ptr) : Prop :=
  r ∈ dispatched s ∨ ∃ e, in_queue s e r.

(* The request at [r] is a pending writeback of [loc]. *)
Definition pending_for (s : sched) (loc : Location) (r : ptr) : Prop :=
  held s r ∧ loc_of s r = Some loc.

(* Uniqueness: the index holds exactly the pending requests, one for a
   location, and a pending request sits in one place, once: in the queue
   of its endpoint or with the writers. *)
Record ptr_inv (s : sched) : Prop := mk_ptr_inv {
  pi_index : ∀ loc r, queued s !! loc = Some r ↔ pending_for s loc r;
  pi_queue : ∀ e r, in_queue s e r →
    (r ∉ dispatched s) ∧ (LocEndpoint <$> loc_of s r) = Some e;
  pi_queue_nodup : ∀ e q, byEndpoint s !! e = Some q → NoDup (queue q);
  pi_disp_nodup : NoDup (dispatched s);
  pi_disp : ∀ r, r ∈ dispatched s →
    ∃ loc, loc_of s r = Some loc ∧ is_Some (byEndpoint s !! LocEndpoint loc);
  pi_timers : ∀ e, e ∈ timers s → is_Some (byEndpoint s !! e)
}.

(* Flush channels: none is closed twice, none that waits on a request of
   the index is closed, and none waits on two requests. *)
Record chan_inv (s : sched) : Prop := mk_chan_inv {
  ci_closed : NoDup (closed s);
  ci_waiters : ∀ loc r, queued s !! loc = Some r →
    NoDup (waiters s r) ∧ ∀ c, c ∈ waiters s r → c ∉ closed s;
  ci_disj : ∀ loc1 loc2 r1 r2 c,
    queued s !! loc1 = Some r1 → queued s !! loc2 = Some r2 →
    c ∈ waiters s r1 → c ∈ waiters s r2 → r1 = r2
}.

(* A cache directory with the block of the second request and its link. *)
Definition linked1 : gmap string bytes :=
  <[cachePath1 "r2" ep1 +:+ writebackSuffix := [Byte.x2a]]>
    (<[cachePath1 "r2" ep1 := [Byte.x2a]]> ∅).

(* The second request is written back while the flush waits. *)
Definition flushed1 : sched :=
  default init (turn (Complete 2%nat None) [[(ep1, true)]] waiting1).

(** ** Calls of the controller *)

Inductive call : Type :=
  | CallAdd
  | CallSuccess
  | CallFailure (e : error).

Definition do_call (p : parallelism) (c : call) : parallelism :=
  match c with
  | CallAdd => add p
  | CallSuccess => success p
  | CallFailure e => (failure p e).2
  end.

(* The calls in turn, the first of the list first. *)
Definition do_calls (l : list call) (p : parallelism) : parallelism :=
  foldl do_call p l.

(* [n] failures in a row with the error [e]. *)
Fixpoint failures (n : nat) (e : error) (p : parallelism) : parallelism :=
  match n with
  | O => p
  | S n' => failures n' e (failure p e).2
  end.

(* A third request is filed behind the second, and then dispatched. *)
Definition submitted1 : sched :=
  default init
    (handle (EvRequest 3%nat) (new_request 3%nat (mkLocation ep1 "r3") live1)).

Definition dispatched1 : sched :=
  default init (fill [[(ep1, true)]; [(ep1, true)]] submitted1).

(** ** What a dispatch pass may do to a queue

    [pre] are the requests it took from the head of [q], leaving [q']: none
    from a DEAD queue, at most one from an UNKNOWN queue, which is DEAD
    after it, any number from a LIVE queue, which stays LIVE. *)
Definition drained (q q' : endpointQueue) (pre : list ptr) : Prop :=
  queue q = pre ++ queue q'
  ∧ match state q with
    | dead => pre = [] ∧ state q' = dead
    | unknown =>
        (pre = [] ∧ state q' = unknown)
        ∨ (List.length pre = 1%nat ∧ state q' = dead)
    | live => state q' = live
    end.

(* The first request of an endpoint is filed, and sent as its probe. *)
Definition probing1 : sched :=
  default init (handle (EvRequest 1%nat) (new_request 1%nat loc1 init)).

Definition probed1 : sched :=
  default init (fill [[(ep1, true)]; [(ep1, true)]] probing1).

(* The probe of the only endpoint comes back with an error. *)
Definition run3 : list (action * list sweep) :=
  [ (Submit 1%nat loc1, [[(ep1, true)]; [(ep1, true)]]);
    (Complete 1%nat (Some "connection refused"), [[(ep1, true)]]) ].

Definition stranded1 : sched := default init (run run3 init).

(* The endpoint [e] is DEAD, no retry is armed for it and none of its
   requests is with the writers. *)
Definition stranded (s : sched) (e : Endpoint) : Prop :=
  (∃ q, byEndpoint s !! e = Some q ∧ state q = dead)
  ∧ (e ∉ timers s)
  ∧ ∀ r loc, r ∈ dispatched s → loc_of s r = Some loc → LocEndpoint loc ≠ e.

(* A stand-in for a store that takes every block and answers with the
   reference "r2". *)
Definition store_r2 (e : Endpoint) : (bytes → Reference + error) + error :=
  inl (λ _, inl "r2").

(* The entry at the link of the second request is there but cannot be
   opened, as a symbolic link whose target is gone: the open reports that
   the file does not exist. *)
Definition dangling1 : os_faults :=
  mkFaults
    (λ p, if String.eqb p (cachePath1 "r2" ep1 +:+ writebackSuffix)
          then Some ("open " +:+ p +:+ ": no such file or directory")
          else None)
    (λ _, None).

(* A cache directory with the block of the second request, not yet linked. *)
Definition cached1 : gmap string bytes :=
  <[cachePath1 "r2" ep1 := [Byte.x2a]]> ∅.

(** * Theorems *)

(** ** Machine integers *)

Lemma int_wrap_id z : in_int z → int_wrap z = z.
Proof.
  unfold in_int, min_int, max_int, int_wrap, int_bits. intros H.
  rewrite Z.mod_small; lia.
Qed.

Lemma int_sub_1 z : min_int < z <= max_int → int_sub z 1 = z - 1.
Proof.
  intros H. apply int_wrap_id. unfold in_int, min_int, max_int in *. lia.
Qed.

Lemma int_add_1 z : min_int <= z < max_int → int_add z 1 = z + 1.
Proof.
  intros H. apply int_wrap_id. unfold in_int, min_int, max_int in *. lia.
Qed.

Lemma min_int_val : min_int = -9223372036854775808.
Proof. reflexivity. Qed.

Lemma max_int_val : max_int = 9223372036854775807.
Proof. reflexivity. Qed.

(** ** The parallelism controller *)

Example success_underloaded :
  success {| inFlight := 5; max := 6; successes := 2 |}
  = {| inFlight := 4; max := 6; successes := 2 |}.
Proof. reflexivity. Qed.

Example failure_halves :
  failure {| inFlight := 6; max := 6; successes := 4 |} "Put: timeout"
  = (true, {| inFlight := 5; max := 3; successes := 0 |}).
Proof. reflexivity. Qed.

(* What [success] computes, without the wrap-around. *)
Lemma success_unfold p :
  no_wrap p →
  success p =
    if inFlight p <? max p then
      {| inFlight := inFlight p - 1; max := max p; successes := successes p |}
    else if max p =? writers then
      {| inFlight := inFlight p - 1; max := max p; successes := successes p + 1 |}
    else if successes p + 1 >=? max p then
      {| inFlight := inFlight p - 1; max := max p + 1; successes := 0 |}
    else
      {| inFlight := inFlight p - 1; max := max p; successes := successes p + 1 |}.
Proof.
  intros (Hi & Hm & Hs). unfold success. cbn [inFlight max successes].
  rewrite (int_sub_1 _ Hi), (int_add_1 (successes p)) by done.
  rewrite (int_add_1 (max p)) by done.
  rewrite (int_add_1 (inFlight p - 1)) by lia.
  replace (inFlight p - 1 + 1) with (inFlight p) by lia.
  done.
Qed.

(** ** Strings *)

#[local] Arguments String.append !_ _ / : simpl nomatch.

Lemma append_assoc (a b c : string) : (a +:+ b) +:+ c = a +:+ (b +:+ c).
Proof. induction a as [|x a IH]; simpl; [done | by rewrite IH]. Qed.

Lemma append_nil_r (a : string) : a +:+ "" = a.
Proof. induction a as [|x a IH]; simpl; [done | by rewrite IH]. Qed.

Lemma length_append (a b : string) :
  String.length (a +:+ b) = (String.length a + String.length b)%nat.
Proof. induction a as [|x a IH]; simpl; [done | by rewrite IH]. Qed.

Lemma substring_prefix (p t : string) :
  substring 0 (String.length p) (p +:+ t) = p.
Proof.
  induction p as [|x p IH]; simpl.
  - by destruct t.
  - by rewrite IH.
Qed.

Lemma substring_suffix (a b : string) :
  substring (String.length a) (String.length b) (a +:+ b) = b.
Proof.
  induction a as [|x a IH]; simpl; [|done].
  pose proof (substring_prefix b "") as H. by rewrite append_nil_r in H.
Qed.

Lemma substring_split (n : nat) (s : string) :
  (n <= String.length s)%nat →
  s = substring 0 n s +:+ substring n (String.length s - n) s.
Proof.
  revert n. induction s as [|x s IH]; intros [|n] Hn; simpl in *; try lia.
  - done.
  - f_equal. pose proof (substring_prefix s "") as H.
    by rewrite append_nil_r in H.
  - rewrite <- IH by lia. done.
Qed.

Lemma length_substring_0 (n : nat) (s : string) :
  (n <= String.length s)%nat → String.length (substring 0 n s) = n.
Proof.
  revert n. induction s as [|x s IH]; intros [|n] Hn; simpl in *; try lia.
  by rewrite IH by lia.
Qed.

Lemma HasPrefix_spec (s p : string) :
  HasPrefix s p = true ↔ ∃ t, s = p +:+ t.
Proof.
  unfold HasPrefix. rewrite andb_true_iff, Nat.leb_le, String.eqb_eq. split.
  - intros [Hl He].
    exists (substring (String.length p) (String.length s - String.length p) s).
    rewrite <- He at 1. by apply substring_split.
  - intros [t ->]. rewrite length_append, substring_prefix. split; [lia | done].
Qed.

Lemma HasSuffix_spec (s p : string) :
  HasSuffix s p = true ↔ ∃ t, s = t +:+ p.
Proof.
  unfold HasSuffix. rewrite andb_true_iff, Nat.leb_le, String.eqb_eq. split.
  - intros [Hl He].
    exists (substring 0 (String.length s - String.length p) s).
    rewrite <- He at 2.
    rewrite (substring_split (String.length s - String.length p) s) at 1 by lia.
    do 2 f_equal. lia.
  - intros [t ->]. rewrite length_append.
    replace (String.length t + String.length p - String.length p)%nat
      with (String.length t) by lia.
    rewrite substring_suffix. split; [lia | done].
Qed.

Lemma Contains_spec (s sub : string) :
  Contains s sub = true ↔ substring_of sub s.
Proof.
  unfold substring_of. split.
  - induction s as [|x s IH]; simpl; rewrite orb_true_iff.
    + intros [H|H]; [|done]. apply HasPrefix_spec in H as [t ->].
      by exists "", t.
    + intros [H|H].
      * apply HasPrefix_spec in H as [t Ht]. exists "", t. by rewrite Ht.
      * destruct (IH H) as (a & b & ->). by exists (String x a), b.
  - intros (a & b & ->). induction a as [|x a IH].
    + assert (HasPrefix ("" +:+ sub +:+ b) sub = true) as H
        by (apply HasPrefix_spec; by exists b).
      destruct ("" +:+ sub +:+ b); simpl; by rewrite H.
    + change (String x a +:+ sub +:+ b) with (String x (a +:+ sub +:+ b)).
      cbn [Contains]. rewrite IH. apply orb_true_r.
Qed.

Lemma isTimeout_spec (e : error) :
  isTimeout e = true ↔ substring_of "timeout" e ∨ substring_of "400" e.
Proof.
  unfold isTimeout. by rewrite orb_true_iff, !Contains_spec.
Qed.

Lemma isTimeout_false (e : error) :
  isTimeout e = false ↔ ¬ substring_of "timeout" e ∧ ¬ substring_of "400" e.
Proof.
  rewrite <- not_true_iff_false, isTimeout_spec. tauto.
Qed.

(** ** [success] and [failure] *)

Lemma Zquot_half_pos m : 1 <= m → 1 <= Z.quot (m + 1) 2 <= m.
Proof.
  intros H. rewrite Z.quot_div_nonneg by lia.
  split; [apply Z.div_le_lower_bound | apply Z.div_le_upper_bound]; lia.
Qed.

Lemma Zquot_half_range m :
  min_int <= m < max_int → in_int (Z.quot (m + 1) 2).
Proof.
  intros H. unfold in_int.
  destruct (Z_le_gt_dec 0 (m + 1)) as [Hp|Hn].
  - rewrite Z.quot_div_nonneg by lia.
    assert (0 <= (m + 1) / 2 <= m + 1); [|unfold min_int in *; simpl in *; lia].
    split; [apply Z.div_pos | apply Z.div_le_upper_bound]; lia.
  - replace (m + 1) with (- (- (m + 1))) by lia.
    rewrite Z.quot_opp_l by lia. rewrite Z.quot_div_nonneg by lia.
    assert (0 <= (- (m + 1)) / 2 <= - (m + 1));
      [|unfold min_int, max_int in *; simpl in *; lia].
    split; [apply Z.div_pos | apply Z.div_le_upper_bound]; lia.
Qed.

(* What [failure] computes, without the wrap-around. *)
Lemma failure_unfold p e :
  no_wrap p →
  failure p e =
    if negb (isTimeout e) then
      (false, {| inFlight := inFlight p - 1; max := max p; successes := successes p |})
    else if inFlight p - 1 >=? max p then
      (true, {| inFlight := inFlight p - 1; max := max p; successes := 0 |})
    else
      (true, {| inFlight := inFlight p - 1; max := Z.quot (max p + 1) 2;
                successes := 0 |}).
Proof.
  intros (Hi & Hm & Hs). unfold failure. cbn [inFlight max successes].
  rewrite (int_sub_1 _ Hi), (int_add_1 (max p)) by done.
  unfold int_div. by rewrite (int_wrap_id _ (Zquot_half_range _ Hm)).
Qed.

(** C4, as amended: [success] decrements [inFlight]; when [inFlight < max]
    held at entry (that is, [inFlight + 1 < max] after the decrement)
    nothing else changes; otherwise [successes] is incremented, and then,
    unless [max = writers], if [successes >= max] the call sets
    [successes] to 0 and increments [max] by one. *)
Theorem success_spec (p : parallelism) :
  no_wrap p →
  inFlight (success p) = inFlight p - 1
  ∧ (inFlight p < max p →
       max (success p) = max p ∧ successes (success p) = successes p)
  ∧ (max p <= inFlight p →
       (max p = writers →
          max (success p) = max p ∧ successes (success p) = successes p + 1)
       ∧ (max p ≠ writers → max p <= successes p + 1 →
          max (success p) = max p + 1 ∧ successes (success p) = 0)
       ∧ (max p ≠ writers → successes p + 1 < max p →
          max (success p) = max p ∧ successes (success p) = successes p + 1)).
Proof.
  intros Hw. rewrite (success_unfold _ Hw).
  destruct (Z.ltb_spec (inFlight p) (max p));
    destruct (Z.eqb_spec (max p) writers);
    destruct (Z.geb_spec (successes p + 1) (max p));
    cbn [inFlight max successes]; repeat split; intros; lia.
Qed.

Lemma success_spec_witness :
  let p := {| inFlight := 6; max := 6; successes := 5 |} in
  no_wrap p ∧ max (success p) = 7 ∧ successes (success p) = 0.
Proof.
  assert (no_wrap {| inFlight := 6; max := 6; successes := 5 |}) as Hw.
  { unfold no_wrap. rewrite min_int_val, max_int_val. simpl. lia. }
  split; [exact Hw|].
  destruct (success_spec _ Hw) as (_ & _ & Hload).
  destruct Hload as (_ & Hup & _); [simpl; lia|].
  apply Hup; [by vm_compute | simpl; lia].
Defined.

(** C4, as stated, fails: a completion entering with [inFlight = max - 1]
    is under-loaded for the code, which leaves [successes] alone, where
    the statement has it counted. *)
Lemma success_stated_counterexample :
  let p := {| inFlight := 5; max := 6; successes := 0 |} in
  no_wrap p
  ∧ ¬ (inFlight p + 1 < max p)
  ∧ success p = {| inFlight := 4; max := 6; successes := 0 |}
  ∧ success_stated p = {| inFlight := 4; max := 6; successes := 1 |}
  ∧ success p ≠ success_stated p.
Proof.
  split; [|split; [|split; [|split]]].
  - unfold no_wrap. rewrite min_int_val, max_int_val. simpl. lia.
  - simpl. lia.
  - reflexivity.
  - reflexivity.
  - by vm_compute.
Qed.

(** C6: [failure] decrements [inFlight]; it returns false iff the message
    contains neither "timeout" nor "400"; otherwise it resets [successes]
    and returns true, halving [max] to [(max + 1) / 2], which stays at
    least 1, only when the decremented [inFlight] is below [max], and
    leaving [max] alone when it is not. *)
Theorem failure_spec (p : parallelism) (e : error) :
  no_wrap p →
  inFlight (failure p e).2 = inFlight p - 1
  ∧ ((failure p e).1 = false ↔
       ¬ substring_of "timeout" e ∧ ¬ substring_of "400" e)
  ∧ ((failure p e).1 = true →
       successes (failure p e).2 = 0
       ∧ (inFlight (failure p e).2 < max p →
            max (failure p e).2 = Z.quot (max p + 1) 2)
       ∧ (max p <= inFlight (failure p e).2 →
            max (failure p e).2 = max p)
       ∧ (1 <= max p → 1 <= max (failure p e).2)).
Proof.
  intros Hw. rewrite (failure_unfold _ _ Hw).
  pose proof (isTimeout_false e) as Hf.
  destruct (isTimeout e); cbn [negb].
  - destruct (Z.geb_spec (inFlight p - 1) (max p)); cbn [fst snd inFlight max successes].
    + split; [done|]. split; [split; [done|] |].
      * intros Hn. by apply Hf in Hn.
      * intros _. repeat split; intros; lia.
    + split; [done|]. split; [split; [done|] |].
      * intros Hn. by apply Hf in Hn.
      * intros _. repeat split; intros; try lia.
        by apply Zquot_half_pos.
  - cbn [fst snd inFlight max successes]. split; [done|]. split; [|done].
    split; [intros _; by apply Hf | done].
Qed.

Lemma failure_spec_witness :
  let p := {| inFlight := 6; max := 6; successes := 4 |} in
  no_wrap p ∧ inFlight (failure p "Put: timeout").2 = 5
  ∧ max (failure p "Put: timeout").2 = 3.
Proof.
  assert (no_wrap {| inFlight := 6; max := 6; successes := 4 |}) as Hw.
  { unfold no_wrap. rewrite min_int_val, max_int_val. simpl. lia. }
  split; [exact Hw|].
  destruct (failure_spec _ "Put: timeout" Hw) as (Hi & _ & Ht).
  split; [exact Hi|].
  destruct Ht as (_ & Hhalf & _); [by vm_compute|].
  rewrite Hhalf; [by vm_compute | rewrite Hi; simpl; lia].
Defined.

(** C10: on an error whose message contains neither "timeout" nor "400",
    [failure] changes [inFlight] only, by one: [max] and [successes] are
    as before. *)
Theorem failure_not_timeout_frame (p : parallelism) (e : error) :
  min_int < inFlight p <= max_int →
  ¬ substring_of "timeout" e → ¬ substring_of "400" e →
  failure p e
  = (false, {| inFlight := inFlight p - 1; max := max p;
               successes := successes p |}).
Proof.
  intros Hi H1 H2. unfold failure.
  assert (isTimeout e = false) as -> by (by apply isTimeout_false).
  cbn [negb inFlight max successes]. by rewrite int_sub_1.
Qed.

Lemma not_timeout_refused :
  ¬ substring_of "timeout" "connection refused"
  ∧ ¬ substring_of "400" "connection refused".
Proof. by apply isTimeout_false. Qed.

Lemma failure_not_timeout_frame_witness :
  failure {| inFlight := 3; max := 6; successes := 4 |} "connection refused"
  = (false, {| inFlight := 2; max := 6; successes := 4 |}).
Proof.
  apply (failure_not_timeout_frame
           {| inFlight := 3; max := 6; successes := 4 |} "connection refused").
  - rewrite min_int_val, max_int_val. simpl. lia.
  - apply not_timeout_refused.
  - apply not_timeout_refused.
Defined.

(** ** The additive increase *)

(* One counted completion below the cap: the streak grows, and when it
   reaches [max] the ceiling goes up by one and the streak restarts. *)
Lemma success_counted_below (n : Z) (p : parallelism) :
  max p <= n <= max_int → 1 <= max p < writers → 0 <= successes p < max p →
  success (with_inFlight n p) =
    if successes p + 1 >=? max p
    then {| inFlight := n - 1; max := max p + 1; successes := 0 |}
    else {| inFlight := n - 1; max := max p; successes := successes p + 1 |}.
Proof.
  intros Hn Hm Hs.
  assert (no_wrap (with_inFlight n p)) as Hw.
  { unfold no_wrap, with_inFlight, writers in *. cbn [inFlight max successes].
    rewrite min_int_val, max_int_val in *. lia. }
  rewrite (success_unfold _ Hw). unfold with_inFlight. cbn [inFlight max successes].
  destruct (Z.ltb_spec n (max p)); [lia|].
  destruct (Z.eqb_spec (max p) writers); [lia|]. done.
Qed.

(* At the cap a counted completion leaves [max] alone. *)
Lemma success_counted_cap (n : Z) (p : parallelism) :
  max p <= n <= max_int → max p = writers →
  max (success (with_inFlight n p)) = writers.
Proof.
  intros Hn Hm. unfold success, with_inFlight. cbn [inFlight max successes].
  rewrite int_sub_1 by (unfold writers in *; rewrite min_int_val; lia).
  rewrite int_add_1 by (rewrite min_int_val, max_int_val in *; unfold writers in *; lia).
  destruct (Z.ltb_spec (n - 1 + 1) (max p)); [lia|].
  cbn [max]. rewrite Hm. by rewrite Z.eqb_refl.
Qed.

(* The bookkeeping of a counted run: with [d] increments made since the
   ceiling was [m], the run has used [m + (m+1) + ... + (m+d-1)]
   completions for them and [successes] more since. *)
Lemma success_run_inv (loads : list Z) :
  ∀ (p : parallelism) (m k0 : Z),
    all_counted loads p →
    1 <= m <= max p → max p <= writers →
    (max p < writers →
       0 <= successes p < max p
       ∧ 2 * k0 = 2 * (max p - m) * m + (max p - m) * (max p - m - 1)
                  + 2 * successes p) →
    (max p = writers →
       2 * (max p - m) * m + (max p - m) * (max p - m - 1) <= 2 * k0) →
    let p' := success_run loads p in
    let k := k0 + Z.of_nat (List.length loads) in
    m <= max p' <= writers
    ∧ (max p' < writers →
         0 <= successes p' < max p'
         ∧ 2 * k = 2 * (max p' - m) * m + (max p' - m) * (max p' - m - 1)
                   + 2 * successes p')
    ∧ (max p' = writers →
         2 * (max p' - m) * m + (max p' - m) * (max p' - m - 1) <= 2 * k).
Proof.
  induction loads as [|n loads IH]; intros p m k0 Hc Hm Hcap Hlt Heq.
  - cbn [success_run List.length Z.of_nat]. rewrite Z.add_0_r.
    split; [lia|]. split; assumption.
  - destruct Hc as [Hn Hc]. cbn [success_run List.length].
    replace (k0 + Z.of_nat (S (List.length loads)))
      with ((k0 + 1) + Z.of_nat (List.length loads)) by lia.
    destruct (Z.eq_dec (max p) writers) as [Hw|Hw].
    + pose proof (success_counted_cap n p Hn Hw) as Hmax.
      apply IH; [done| lia | lia | lia |].
      intros _. rewrite Hmax, <- Hw. specialize (Heq Hw). lia.
    + destruct Hlt as [Hs Hk]; [lia|].
      pose proof (success_counted_below n p Hn ltac:(lia) Hs) as Hsucc.
      destruct (Z.geb_spec (successes p + 1) (max p)) as [Hge|Hlt'].
      * apply IH; [done | rewrite Hsucc; simpl; lia | rewrite Hsucc; simpl; lia | |];
          rewrite Hsucc; cbn [inFlight max successes]; intros Hx.
        -- split; [lia|]. nia.
        -- nia.
      * apply IH; [done | rewrite Hsucc; simpl; lia | rewrite Hsucc; simpl; lia | |];
          rewrite Hsucc; cbn [inFlight max successes]; intros Hx.
        -- split; [lia|]. nia.
        -- lia.
Qed.

(** C5, as amended: from [successes = 0] and [max = m], [1 <= m < writers],
    a run of [k] counted successes raises [max] by [d], the largest
    [d <= writers - m] with [m + (m+1) + ... + (m+d-1) <= k]: an increment
    from ceiling [c] takes [c] counted successes.  This is [k / m] as long
    as [k < 2 * m]. *)
Theorem aimd_increase (loads : list Z) (p : parallelism) (m : Z) :
  all_counted loads p →
  successes p = 0 → max p = m → 1 <= m < writers →
  let k := Z.of_nat (List.length loads) in
  let d := max (success_run loads p) - m in
  0 <= d <= writers - m
  ∧ 2 * d * m + d * (d - 1) <= 2 * k
  ∧ (m + d < writers → 2 * k < 2 * (d + 1) * m + (d + 1) * d)
  ∧ (k < 2 * m → d = k / m).
Proof.
  intros Hc Hs Hm Hr k d.
  destruct (success_run_inv loads p m 0 Hc) as (Hb & Hlt & Heq);
    [lia | lia | intros _; split; [lia | nia] | intros; lia |].
  rewrite Z.add_0_l in Hlt, Heq. fold k in Hlt, Heq. fold d in Hlt, Heq.
  assert (0 <= d <= writers - m) as Hd by (unfold d; lia).
  assert (2 * d * m + d * (d - 1) <= 2 * k) as Hlow.
  { destruct (Z.eq_dec (max (success_run loads p)) writers) as [Hw|Hw].
    - by apply Heq.
    - destruct Hlt as [Hs' Hk]; [lia|]. lia. }
  assert (m + d < writers → 2 * k < 2 * (d + 1) * m + (d + 1) * d) as Hup.
  { intros Hx. destruct Hlt as [Hs' Hk]; [unfold d in Hx; lia|].
    assert (successes (success_run loads p) < m + d) by (unfold d; lia). nia. }
  split; [done|]. split; [done|]. split; [done|].
  intros Hk. destruct (Z_lt_ge_dec k m) as [Hkm|Hkm].
  - rewrite Z.div_small by (unfold k in *; lia).
    destruct (Z.eq_dec d 0) as [|Hd0]; [done|]. nia.
  - assert (d = 1) as Hd1.
    { destruct (Z.eq_dec d 0) as [Hd0|Hd0].
      - rewrite Hd0 in Hup. lia.
      - destruct (Z.eq_dec d 1) as [|Hd1]; [done|]. nia. }
    rewrite Hd1. apply (Z.div_unique k m 1 (k - m)); lia.
Qed.

Lemma aimd_increase_witness :
  let p := {| inFlight := 6; max := 6; successes := 0 |} in
  let loads := [6; 6; 6; 6; 6; 6; 7] in
  max (success_run loads p) - 6 = 7 / 6.
Proof.
  intros p loads.
  assert (all_counted loads p) as Hc.
  { unfold loads, p. repeat split; by vm_compute. }
  apply (aimd_increase loads p 6 Hc); [done | done | by vm_compute | by vm_compute].
Defined.

(** C5, as stated, fails: from [max = 6], twelve counted successes raise
    [max] once, to 7, and not by [12 / 6 = 2]; the seventh to twelfth are
    counted against the new ceiling 7. *)
Lemma aimd_floor_counterexample :
  let p := {| inFlight := 6; max := 6; successes := 0 |} in
  let loads := [6; 6; 6; 6; 6; 6; 7; 7; 7; 7; 7; 7] in
  all_counted loads p
  ∧ Z.of_nat (List.length loads) = 12
  ∧ success_run loads p = {| inFlight := 6; max := 7; successes := 6 |}
  ∧ max (success_run loads p) - max p ≠ 12 / max p.
Proof.
  intros p loads. split; [|split; [|split]].
  - unfold loads, p. repeat split; by vm_compute.
  - reflexivity.
  - reflexivity.
  - by vm_compute.
Qed.

(** ** Splitting paths *)

Lemma append_inj_r (a b s : string) : a +:+ s = b +:+ s → a = b.
Proof.
  intros H.
  assert (String.length a = String.length b) as Hl.
  { apply (f_equal String.length) in H. rewrite !length_append in H. lia. }
  rewrite <- (substring_prefix a s), <- (substring_prefix b s), H, Hl. done.
Qed.

Lemma TrimSuffix_app (t suf : string) : TrimSuffix (t +:+ suf) suf = t.
Proof.
  unfold TrimSuffix.
  assert (HasSuffix (t +:+ suf) suf = true) as -> by (apply HasSuffix_spec; eauto).
  rewrite length_append.
  replace (String.length t + String.length suf - String.length suf)%nat
    with (String.length t) by lia.
  apply substring_prefix.
Qed.

Lemma TrimSuffix_none (s suf : string) :
  HasSuffix s suf = false → TrimSuffix s suf = s.
Proof. unfold TrimSuffix. by intros ->. Qed.

(* [TrimSuffix] returns its argument iff there was nothing to trim. *)
Lemma TrimSuffix_same (s suf : string) :
  suf ≠ "" → (TrimSuffix s suf = s ↔ ¬ ∃ t, s = t +:+ suf).
Proof.
  intros Hne. split.
  - intros Heq [t ->]. rewrite TrimSuffix_app in Heq.
    apply (f_equal String.length) in Heq. rewrite length_append in Heq.
    destruct suf; [done | simpl in Heq; lia].
  - intros Hn. apply TrimSuffix_none.
    destruct (HasSuffix s suf) eqn:E; [|done].
    apply HasSuffix_spec in E. done.
Qed.

Lemma TrimPrefix_spec (s prefix : string) :
  (∃ t, s = prefix +:+ t ∧ TrimPrefix s prefix = t)
  ∨ ((¬ ∃ t, s = prefix +:+ t) ∧ TrimPrefix s prefix = s).
Proof.
  unfold TrimPrefix. destruct (HasPrefix s prefix) eqn:E.
  - left. apply HasPrefix_spec in E as [t ->]. exists t. split; [done|].
    rewrite length_append.
    replace (String.length prefix + String.length t - String.length prefix)%nat
      with (String.length t) by lia.
    apply substring_suffix.
  - right. split; [|done]. intros H. apply HasPrefix_spec in H. congruence.
Qed.

Lemma Split_nonempty (s : string) (sep : ascii) : Split s sep ≠ [].
Proof.
  destruct s as [|c s]; simpl; [done|].
  destruct (Ascii.eqb c sep); [done|]. by destruct (Split s sep).
Qed.

Lemma Split_free (x : string) (sep : ascii) :
  free_of sep x → Split x sep = [x].
Proof.
  induction x as [|c x IH]; simpl; [done|]. intros [Hc Hx].
  apply Ascii.eqb_neq in Hc. rewrite Hc, (IH Hx). done.
Qed.

Lemma Split_app_sep (x t : string) (sep : ascii) :
  free_of sep x → Split (x +:+ String sep t) sep = x :: Split t sep.
Proof.
  induction x as [|c x IH]; simpl.
  - intros _. by rewrite Ascii.eqb_refl.
  - intros [Hc Hx]. apply Ascii.eqb_neq in Hc. rewrite Hc, (IH Hx). done.
Qed.

(* [Split] inverts [Join] on pieces free of the separator, and only there. *)
Lemma Split_spec (s : string) (sep : ascii) (l : list string) :
  Split s sep = l ↔ l ≠ [] ∧ Forall (free_of sep) l ∧ s = Join l sep.
Proof.
  split.
  - revert l. induction s as [|c s IH]; intros l; simpl.
    + intros <-. split; [done|]. split; [|done]. by repeat constructor.
    + destruct (Ascii.eqb_spec c sep) as [->|Hc].
      * intros <-. destruct (IH _ eq_refl) as (Hne & Hf & Hs).
        split; [done|]. split; [by constructor|].
        destruct (Split s sep) as [|y ys]; [done|]. simpl. by rewrite Hs.
      * destruct (Split s sep) as [|y ys] eqn:E.
        { by apply Split_nonempty in E. }
        intros <-. destruct (IH _ eq_refl) as (Hne & Hf & Hs).
        split; [done|]. apply Forall_cons in Hf as [Hy Hys].
        split; [constructor; [done | done]|].
        rewrite Hs. by destruct ys.
  - intros (Hne & Hf & ->). induction l as [|x l IH]; [done|].
    apply Forall_cons in Hf as [Hx Hl]. destruct l as [|y l].
    + simpl. by apply Split_free.
    + change (Join (x :: y :: l) sep) with (x +:+ String sep (Join (y :: l) sep)).
      rewrite Split_app_sep by done. f_equal. by apply IH.
Qed.

Lemma Split_three (s a b c : string) (sep : ascii) :
  Split s sep = [a; b; c] ↔
  s = a +:+ String sep (b +:+ String sep c)
  ∧ free_of sep a ∧ free_of sep b ∧ free_of sep c.
Proof.
  rewrite Split_spec. simpl. split.
  - intros (_ & Hf & ->). apply Forall_cons in Hf as [Ha Hf].
    apply Forall_cons in Hf as [Hb Hf]. apply Forall_cons in Hf as [Hc _]. done.
  - intros (-> & Ha & Hb & Hc). split; [done|]. split; [|done].
    by repeat constructor.
Qed.

(** ** [enqueueWritebackFile] *)

Example enqueue_link :
  enqueueWritebackFile parse_remote (Some (mkStoreCache "/cache"))
    "/cache/remote,store.example.com:443/ab/abcdef_wbf"
  = (true, Some (mkRequest
                   (mkLocation (mkEndpoint 3 "store.example.com:443") "abcdef")
                   None [])).
Proof. reflexivity. Qed.

Example enqueue_odd :
  enqueueWritebackFile parse_remote (Some (mkStoreCache "/cache"))
    "/cache/remote,store.example.com:443/abcdef_wbf"
  = (true, None).
Proof. reflexivity. Qed.

Example enqueue_other :
  enqueueWritebackFile parse_remote (Some (mkStoreCache "/cache"))
    "/cache/remote,store.example.com:443/ab/abcdef"
  = (false, None).
Proof. reflexivity. Qed.

(** C9, as amended: [enqueueWritebackFile] returns false, and submits
    nothing, iff the path does not end in "_wbf".  On a nil receiver (the
    cache runs as writethrough) it submits nothing.  Otherwise it submits a
    request iff the path, without the suffix and without the prefix
    [dir/] where it has it, is [a/b/c] with no slash in [a], [b], [c] and
    [a] parses as an endpoint; the request carries that endpoint and [c]
    as its reference, no error and no waiters. *)
Theorem enqueueWritebackFile_spec
    (ParseEndpoint : string → Endpoint + error)
    (wbq : option storeCache) (path : string) :
  ((enqueueWritebackFile ParseEndpoint wbq path).1 = false ↔
     ¬ ∃ t, path = t +:+ "_wbf")
  ∧ ((enqueueWritebackFile ParseEndpoint wbq path).1 = false →
     (enqueueWritebackFile ParseEndpoint wbq path).2 = None)
  ∧ (wbq = None → (enqueueWritebackFile ParseEndpoint wbq path).2 = None)
  ∧ (∀ sc req, wbq = Some sc →
       ((enqueueWritebackFile ParseEndpoint wbq path).2 = Some req ↔
          ∃ t a b c e,
            path = t +:+ "_wbf"
            ∧ TrimPrefix t (dir sc +:+ "/") = a +:+ "/" +:+ b +:+ "/" +:+ c
            ∧ free_of "/" a ∧ free_of "/" b ∧ free_of "/" c
            ∧ ParseEndpoint a = inl e
            ∧ req = mkRequest (mkLocation e c) None [])).
Proof.
  unfold enqueueWritebackFile, writebackSuffix.
  pose proof (TrimSuffix_same path "_wbf" ltac:(done)) as Hsame.
  destruct (String.eqb_spec (TrimSuffix path "_wbf") path) as [Heq|Hne].
  { (* not a writeback link *)
    apply Hsame in Heq. cbn [fst snd]. split; [done|]. split; [done|].
    split; [done|]. intros sc req _. split; [done|].
    intros (t & a & b & c & e & -> & _). destruct Heq. by exists t. }
  assert (∃ t, path = t +:+ "_wbf") as [t ->].
  { destruct (HasSuffix path "_wbf") eqn:E.
    - by apply HasSuffix_spec in E.
    - by rewrite TrimSuffix_none in Hne. }
  rewrite (TrimSuffix_app t "_wbf").
  assert (true = false ↔ ¬ ∃ t0, t +:+ "_wbf" = t0 +:+ "_wbf") as Htrue.
  { split; [done|]. intros []. by exists t. }
  destruct wbq as [sc|]; cbn [fst snd].
  2:{ split; [apply Htrue|]. split; [done|]. split; [done|]. by intros. }
  assert (∀ req,
    (∃ t0 a b c e, t +:+ "_wbf" = t0 +:+ "_wbf"
       ∧ TrimPrefix t0 (dir sc +:+ "/") = a +:+ "/" +:+ b +:+ "/" +:+ c
       ∧ free_of "/" a ∧ free_of "/" b ∧ free_of "/" c
       ∧ ParseEndpoint a = inl e ∧ req = mkRequest (mkLocation e c) None [])
    ↔ ∃ a c e, (∃ b, Split (TrimPrefix t (dir sc +:+ "/")) "/" = [a; b; c])
         ∧ ParseEndpoint a = inl e
         ∧ req = mkRequest (mkLocation e c) None []) as Hreq.
  { intros req. split.
    - intros (t0 & a & b & c & e & Ht & Hs & Ha & Hb & Hc & He & ->).
      apply append_inj_r in Ht as <-. exists a, c, e.
      split; [|done]. exists b. by apply Split_three.
    - intros (a & c & e & [b Hs] & He & ->). apply Split_three in Hs.
      destruct Hs as (Hs & Ha & Hb & Hc). by exists t, a, b, c, e. }
  destruct (Split (TrimPrefix t (dir sc +:+ "/")) "/") as [|a [|b [|c [|x l]]]] eqn:E;
    cbn [fst snd];
    try (split; [apply Htrue|]; split; [done|]; split; [done|];
         intros sc' req [= <-]; rewrite Hreq; split; [done|];
         by intros (? & ? & ? & [? ?] & _)).
  destruct (ParseEndpoint a) as [e|msg] eqn:Ep; cbn [fst snd].
  - split; [apply Htrue|]. split; [done|]. split; [done|].
    intros sc' req [= <-]. rewrite Hreq. split.
    + intros [= <-]. exists a, c, e. split; [by exists b | done].
    + intros (a' & c' & e' & [b' [= <- <- <-]] & He & ->). congruence.
  - split; [apply Htrue|]. split; [done|]. split; [done|].
    intros sc' req [= <-]. rewrite Hreq. split; [done|].
    intros (a' & c' & e' & [b' [= <- <- <-]] & He & _). congruence.
Qed.

(** C9, as stated, fails: on a nil receiver a well-formed link name
    yields true and no request. *)
Lemma enqueueWritebackFile_nil_counterexample :
  let path := "/cache/remote,store.example.com:443/ab/abcdef_wbf" in
  enqueueWritebackFile parse_remote None path = (true, None)
  ∧ Split (TrimPrefix (TrimSuffix path "_wbf") "/cache/") "/"
    = ["remote,store.example.com:443"; "ab"; "abcdef"]
  ∧ parse_remote "remote,store.example.com:443"
    = inl (mkEndpoint 3 "store.example.com:443").
Proof. repeat split. Qed.

(** ** Completions *)

(* Projections of updated scheduler states. *)
Ltac sched_simpl :=
  cbn [heap byEndpoint queued dispatched closed timers par terminated
       set_heap set_byEndpoint set_queued set_dispatched set_closed
       set_timers set_par set_terminated queue state Loc err flushChans
       mbind option_bind fmap option_fmap option_map fst snd] in *.

(* The completion of a request that failed. *)
Lemma on_done_failed (s : sched) (r : ptr) (req : request) (er : error)
    (epq : endpointQueue) :
  heap s !! r = Some req → err req = Some er →
  byEndpoint s !! LocEndpoint (Loc req) = Some epq →
  on_done r s =
    let e := LocEndpoint (Loc req) in
    let s0 := set_par (failure (par s) er).2
                (set_dispatched (remove1 r (dispatched s)) s) in
    if (failure (par s) er).1 || is_dead (state epq) then
      Some (set_byEndpoint
              (<[e := mkQueue (queue epq ++ [r]) (state epq)]> (byEndpoint s)) s0)
    else
      Some (set_timers (timers s ++ [e])
              (set_byEndpoint
                 (<[e := mkQueue (queue epq ++ [r]) dead]> (byEndpoint s)) s0)).
Proof.
  intros Hr He Hq. unfold on_done. sched_simpl.
  rewrite Hr. sched_simpl. rewrite Hq. sched_simpl.
  rewrite He. destruct (failure (par s) er) as [[] p] eqn:Ef; sched_simpl;
    cbn [orb]; [done|]. by destruct (is_dead (state epq)).
Qed.

(* The completion of a request that succeeded. *)
Lemma on_done_succeeded (s : sched) (r : ptr) (req : request)
    (epq : endpointQueue) :
  heap s !! r = Some req → err req = None →
  byEndpoint s !! LocEndpoint (Loc req) = Some epq →
  on_done r s =
    Some (mkSched (heap s)
            (<[LocEndpoint (Loc req) := mkQueue (queue epq) live]> (byEndpoint s))
            (delete (Loc req) (queued s))
            (remove1 r (dispatched s))
            (closed s ++ flushChans req)
            (timers s)
            (success (par s))
            (terminated s)).
Proof.
  intros Hr He Hq. unfold on_done. sched_simpl.
  rewrite Hr. sched_simpl. rewrite Hq. sched_simpl.
  by rewrite He.
Qed.

(** C1, as amended: on a completion with an error the request is appended
    to the tail of its endpoint's queue.  When the controller does not
    class the error as a timeout, [max] is as before and the queue is DEAD
    afterwards: it is set DEAD and a retry is armed unless it was DEAD
    already.  When the controller classes it as a timeout and has handled
    it, the state of the queue is as before and no retry is armed. *)
Theorem on_done_error_spec (s : sched) (r : ptr) (req : request) (er : error)
    (epq : endpointQueue) :
  heap s !! r = Some req → err req = Some er →
  byEndpoint s !! LocEndpoint (Loc req) = Some epq →
  ∃ s' st,
    on_done r s = Some s'
    ∧ byEndpoint s' !! LocEndpoint (Loc req)
      = Some (mkQueue (queue epq ++ [r]) st)
    ∧ (isTimeout er = false →
         st = dead
         ∧ max (par s') = max (par s)
         ∧ timers s' = if is_dead (state epq) then timers s
                       else timers s ++ [LocEndpoint (Loc req)])
    ∧ (isTimeout er = true → st = state epq ∧ timers s' = timers s).
Proof.
  intros Hr He Hq. rewrite (on_done_failed s r req er epq Hr He Hq).
  cbv zeta. unfold failure. destruct (isTimeout er) eqn:Et; cbn [negb].
  - (* a timeout: the controller has dealt with it *)
    destruct (_ >=? _); cbn [fst snd orb];
      (eexists _, (state epq); split; [done|]; sched_simpl;
       rewrite lookup_insert_eq; done).
  - cbn [fst snd orb]. destruct (state epq) eqn:Es; cbn [is_dead];
      (eexists _, dead; split; [done|]; sched_simpl; cbn [max];
       rewrite lookup_insert_eq; done).
Qed.

(** ** Building reachable states *)

(* A run that passes the check, from a reachable state, ends in a
   reachable state. *)
Lemma run_check_reachable (l : list (action * list sweep)) :
  ∀ s d, reachable s → run_check l s = true → reachable (default d (run l s)).
Proof.
  induction l as [|[a sws] l IH]; intros s d Hs Hc; simpl in *; [done|].
  apply andb_true_iff in Hc as [Hc Hrest]. apply andb_true_iff in Hc as [Hen Hsw].
  apply bool_decide_eq_true in Hen.
  destruct (turn a sws s) as [s1|] eqn:Et; [|done]. simpl.
  apply IH; [|done]. apply (reach_turn s a sws s1); [done | done | | done].
  intros s0 Hh. rewrite Hh in Hsw. apply Forall_forall. intros sw Hin.
  rewrite forallb_forall in Hsw. apply list_elem_of_In in Hin.
  specialize (Hsw sw Hin). by apply bool_decide_eq_true in Hsw.
Qed.

Lemma live1_reachable : reachable live1.
Proof.
  apply (run_check_reachable run1 init); [apply reach_init | by vm_compute].
Qed.

Example live1_state :
  byEndpoint live1 !! ep1 = Some (mkQueue [] live)
  ∧ dispatched live1 = [2%nat]
  ∧ queued live1 !! loc2 = Some 2%nat
  ∧ par live1 = {| inFlight := 1; max := 6; successes := 0 |}
  ∧ timers live1 = [].
Proof. repeat split; by vm_compute. Qed.

Lemma on_done_error_spec_witness :
  ∃ s', on_done 2%nat (set_err 2%nat (Some "connection refused") live1) = Some s'
        ∧ byEndpoint s' !! ep1 = Some (mkQueue [2%nat] dead)
        ∧ max (par s') = 6
        ∧ timers s' = [ep1].
Proof.
  destruct (on_done_error_spec
              (set_err 2%nat (Some "connection refused") live1) 2%nat
              (mkRequest loc2 (Some "connection refused") [])
              "connection refused" (mkQueue [] live))
    as (s' & st & Hs & Hq & Hother & _); [by vm_compute ..|].
  exists s'. split; [exact Hs|].
  destruct Hother as (-> & Hmax & Ht); [by vm_compute|].
  split; [exact Hq|]. split; [exact Hmax | exact Ht].
Defined.

(** C1, as stated, fails.  In a reachable state whose endpoint is LIVE, a
    completion with the error "connection refused", which the controller
    does not class as a timeout, sets the queue DEAD and arms a retry;
    one with the error "timeout", which the controller handles, leaves
    the queue LIVE and arms no retry. *)
Lemma on_done_dead_counterexample :
  reachable live1
  ∧ (state <$> byEndpoint live1 !! ep1) = Some live
  ∧ isTimeout "connection refused" = false
  ∧ (s' ← on_done 2%nat (set_err 2%nat (Some "connection refused") live1);
     Some (state <$> byEndpoint s' !! ep1, timers s'))
    = Some (Some dead, [ep1])
  ∧ isTimeout "timeout" = true
  ∧ (failure (par live1) "timeout").1 = true
  ∧ (s' ← on_done 2%nat (set_err 2%nat (Some "timeout") live1);
     Some (state <$> byEndpoint s' !! ep1, timers s'))
    = Some (Some live, []).
Proof.
  split; [apply live1_reachable|]. repeat split; by vm_compute.
Qed.

(** ** The writer and a failed read *)

Lemma set_err_heap (r : ptr) (e : option error) (s : sched) (req : request) :
  heap s !! r = Some req →
  heap (set_err r e s) !! r = Some (mkRequest (Loc req) e (flushChans req)).
Proof.
  intros H. unfold set_err. sched_simpl. by rewrite lookup_alter_eq, H.
Qed.

(** C2, as amended: when the read of the link of a dispatched request
    fails, with not-found or with any other error, [writeback] reports
    success and leaves the cache directory as it is: it removes no link.
    The scheduler, on receiving the completion, closes the flush channels
    of the request and deletes its location from the index. *)
Theorem writeback_read_failure
    (cachePath : Reference → Endpoint → string)
    (StoreServer : Endpoint → (bytes → Reference + error) + error)
    (quote : string → string) (flt : os_faults)
    (fs : gmap string bytes) (s : sched) (r : ptr) (req : request)
    (epq : endpointQueue) (msg : error) :
  heap s !! r = Some req →
  byEndpoint s !! LocEndpoint (Loc req) = Some epq →
  readFromCacheFile flt fs
    (cachePath (LocReference (Loc req)) (LocEndpoint (Loc req)) +:+ writebackSuffix)
  = inr msg →
  ∃ s1 s2,
    writer cachePath StoreServer quote flt fs r s = Some (s1, fs)
    ∧ (err <$> heap s1 !! r) = Some None
    ∧ on_done r s1 = Some s2
    ∧ closed s2 = closed s ++ flushChans req
    ∧ queued s2 = delete (Loc req) (queued s).
Proof.
  intros Hr Hq Hread. unfold writer. rewrite Hr. sched_simpl.
  unfold writeback. cbn [Loc]. rewrite Hread.
  pose proof (set_err_heap r None s req Hr) as Hr1.
  eexists _, _. split; [done|]. split; [by rewrite Hr1|].
  split; [|split].
  - by apply (on_done_succeeded _ r _ epq Hr1).
  - done.
  - done.
Qed.

Lemma writeback_read_failure_witness :
  ∃ s1 s2,
    writer cachePath1 no_store id dangling1 linked1 2%nat waiting1
    = Some (s1, linked1)
    ∧ on_done 2%nat s1 = Some s2
    ∧ closed s2 = closed waiting1 ++ [7%nat]
    ∧ queued s2 = delete loc2 (queued waiting1).
Proof.
  destruct (writeback_read_failure cachePath1 no_store id dangling1 linked1
              waiting1 2%nat (mkRequest loc2 None [7%nat]) (mkQueue [] live)
              "open /cache/remote,store.example.com:443/r2_wbf: no such file or directory")
    as (s1 & s2 & Hw & _ & Hd & Hc & Hq); [by vm_compute ..|].
  exists s1, s2. split; [exact Hw|]. split; [exact Hd|].
  split; [exact Hc | exact Hq].
Defined.

(** C2, as stated, fails: the entry at the link path is in the cache
    directory and the read of it fails with not-found; [writeback] returns
    nil and the entry is still there. *)
Lemma writeback_keeps_link_counterexample :
  let link := cachePath1 "r2" ep1 +:+ writebackSuffix in
  let msg := "open /cache/remote,store.example.com:443/r2_wbf: no such file or directory" in
  readFromCacheFile dangling1 linked1 link = inr msg
  ∧ Contains msg "no such file or directory" = true
  ∧ writeback cachePath1 no_store id dangling1 linked1 (mkRequest loc2 None [])
    = (None, linked1)
  ∧ linked1 !! link = Some [Byte.x2a].
Proof. repeat split; by vm_compute. Qed.

(** ** Lists as channels *)

Lemma remove1_length {A} `{EqDecision A} (x : A) (l : list A) :
  x ∈ l → S (List.length (remove1 x l)) = List.length l.
Proof.
  induction l as [|y l IH]; intros Hx; [by apply elem_of_nil in Hx|].
  simpl. destruct (decide (x = y)); [done|].
  apply elem_of_cons in Hx as [|Hx]; [done|]. simpl. by rewrite IH.
Qed.

Lemma elem_of_remove1 {A} `{EqDecision A} (x y : A) (l : list A) :
  y ∈ remove1 x l → y ∈ l.
Proof.
  induction l as [|z l IH]; simpl; [done|].
  destruct (decide (x = z)); [by right|].
  intros [->|Hy]%elem_of_cons; [by left | right; by apply IH].
Qed.

Lemma elem_of_remove1_ne {A} `{EqDecision A} (x y : A) (l : list A) :
  y ≠ x → y ∈ l → y ∈ remove1 x l.
Proof.
  intros Hne. induction l as [|z l IH]; simpl; [done|].
  intros [->|Hy]%elem_of_cons.
  - destruct (decide (x = z)); [done | by left].
  - destruct (decide (x = z)); [done | right; by apply IH].
Qed.

Lemma NoDup_remove1 {A} `{EqDecision A} (x : A) (l : list A) :
  NoDup l → NoDup (remove1 x l) ∧ x ∉ remove1 x l.
Proof.
  induction 1 as [|z l Hz Hl IH]; simpl; [split; [constructor | by intros ?%elem_of_nil]|].
  destruct (decide (x = z)) as [->|Hne]; [done|].
  destruct IH as [IH1 IH2]. split.
  - constructor; [|done]. intros Hin. by apply elem_of_remove1 in Hin.
  - intros [->|Hin]%elem_of_cons; done.
Qed.

(** ** Bounded concurrency *)

Lemma success_bounds (p : parallelism) :
  1 <= inFlight p <= writers → 1 <= max p <= writers →
  inFlight (success p) = inFlight p - 1 ∧ 1 <= max (success p) <= writers.
Proof.
  unfold writers. intros Hi Hm. unfold success. cbn [inFlight max successes].
  rewrite int_sub_1 by (rewrite min_int_val, max_int_val; lia).
  rewrite int_add_1 by (rewrite min_int_val, max_int_val; lia).
  destruct (_ <? _); cbn [inFlight max]; [lia|].
  destruct (Z.eqb_spec (max p) writers); cbn [inFlight max]; [lia|].
  destruct (_ >=? _); cbn [inFlight max]; [|lia].
  rewrite int_add_1 by (rewrite min_int_val, max_int_val; lia).
  unfold writers in *. lia.
Qed.

Lemma failure_bounds (p : parallelism) (e : error) :
  1 <= inFlight p <= writers → 1 <= max p <= writers →
  inFlight (failure p e).2 = inFlight p - 1
  ∧ 1 <= max (failure p e).2 <= writers.
Proof.
  unfold writers. intros Hi Hm. unfold failure. cbn [inFlight max successes].
  rewrite int_sub_1 by (rewrite min_int_val, max_int_val; lia).
  destruct (negb _); cbn [snd inFlight max]; [lia|].
  destruct (_ >=? _); cbn [snd inFlight max]; [lia|].
  rewrite int_add_1 by (rewrite min_int_val, max_int_val; lia).
  unfold int_div. pose proof (Zquot_half_pos (max p) ltac:(lia)) as Hq.
  rewrite int_wrap_id by (unfold in_int; rewrite min_int_val, max_int_val; lia).
  lia.
Qed.

Lemma success_rel (p : parallelism) :
  1 <= inFlight p <= writers → 1 <= max p <= writers →
  inFlight p < 2 * max p →
  inFlight (success p) < 2 * max (success p).
Proof.
  unfold writers. intros Hi Hm Hrel. unfold success. cbn [inFlight max successes].
  rewrite int_sub_1 by (rewrite min_int_val, max_int_val; lia).
  rewrite int_add_1 by (rewrite min_int_val, max_int_val; lia).
  destruct (_ <? _); cbn [inFlight max]; [lia|].
  destruct (Z.eqb_spec (max p) writers); cbn [inFlight max]; [lia|].
  destruct (_ >=? _); cbn [inFlight max]; [|lia].
  rewrite int_add_1 by (rewrite min_int_val, max_int_val; lia).
  lia.
Qed.

Lemma Zquot_half_double m : 0 <= m → m <= 2 * Z.quot (m + 1) 2.
Proof.
  intros H. rewrite Z.quot_div_nonneg by lia.
  pose proof (Z.div_mod (m + 1) 2 ltac:(lia)) as Hd.
  pose proof (Z.mod_pos_bound (m + 1) 2 ltac:(lia)) as Hb. lia.
Qed.

Lemma failure_rel (p : parallelism) (e : error) :
  1 <= inFlight p <= writers → 1 <= max p <= writers →
  inFlight p < 2 * max p →
  inFlight (failure p e).2 < 2 * max (failure p e).2.
Proof.
  unfold writers. intros Hi Hm Hrel. unfold failure. cbn [inFlight max successes].
  rewrite int_sub_1 by (rewrite min_int_val, max_int_val; lia).
  destruct (negb _); cbn [snd inFlight max]; [lia|].
  destruct (Z.geb_spec (inFlight p - 1) (max p)); cbn [snd inFlight max]; [lia|].
  rewrite int_add_1 by (rewrite min_int_val, max_int_val; lia).
  unfold int_div. pose proof (Zquot_half_pos (max p) ltac:(lia)) as Hq.
  pose proof (Zquot_half_double (max p) ltac:(lia)) as Hd.
  rewrite int_wrap_id by (unfold in_int; rewrite min_int_val, max_int_val; lia).
  lia.
Qed.


Lemma add_bounds (p : parallelism) :
  0 <= inFlight p → max p <= writers → ok p = true →
  inFlight (add p) = inFlight p + 1 ∧ inFlight (add p) <= max (add p).
Proof.
  unfold writers, ok. intros Hi Hm Hok. apply Z.ltb_lt in Hok.
  unfold add. cbn [inFlight max].
  rewrite int_add_1 by (rewrite min_int_val, max_int_val; lia). lia.
Qed.

Lemma pickAndQueue_par_inv (sw : sweep) :
  ∀ sent s, par_inv s → par_inv (pickAndQueue sw sent s).2.
Proof.
  induction sw as [|[e room] sw IH]; intros sent s Hinv; simpl; [done|].
  destruct (ok (par s)) eqn:Hok; cbn [negb]; [|done].
  destruct (byEndpoint s !! e) as [q|]; [|by apply IH].
  destruct (is_dead (state q)); [by apply IH|].
  destruct (queue q) as [|r rest]; [by apply IH|].
  destruct room; [|done]. apply IH.
  destruct Hinv as (Hlen & Hmax & Hcap & Hrel). unfold par_inv. sched_simpl.
  destruct (add_bounds (par s)) as [Ha Hle]; [lia | lia | done |].
  cbn [max add] in *. rewrite length_app, Ha. simpl. lia.
Qed.

Lemma fill_par_inv (sws : list sweep) :
  ∀ s s', par_inv s → fill sws s = Some s' → par_inv s'.
Proof.
  induction sws as [|sw sws IH]; intros s s' Hinv; simpl; [done|].
  pose proof (pickAndQueue_par_inv sw false s Hinv) as H1.
  destruct (pickAndQueue sw false s) as [[] s1]; simpl in H1.
  - by apply IH.
  - by intros [= <-].
Qed.

Lemma handle_par_inv (a : action) (s s' : sched) :
  par_inv s → enabled a s →
  handle (event_of a) (prepare a s) = Some s' → par_inv s'.
Proof.
  intros (Hlen & Hmax & Hcap & Hrel) [_ Hen].
  destruct a as [r loc|r e|e|loc c|]; simpl in *.
  - (* Submit *)
    unfold on_request, new_request. sched_simpl.
    rewrite lookup_insert_eq. sched_simpl. cbn [Loc].
    destruct (queued s !! loc); intros [= <-]; by unfold par_inv.
  - (* Complete *)
    pose proof (remove1_length r (dispatched s) Hen) as Hrem.
    assert (1 <= inFlight (par s) <= writers) as Hi by lia.
    unfold on_done, set_err. sched_simpl. rewrite lookup_alter_eq.
    destruct (heap s !! r) as [req|]; sched_simpl; [|done]. cbn [Loc err].
    destruct (byEndpoint s !! _) as [epq|]; sched_simpl; [|done].
    destruct e as [er|].
    + destruct (failure_bounds (par s) er Hi Hmax) as [Hf Hfm].
      pose proof (failure_rel (par s) er Hi Hmax Hrel) as Hfr.
      destruct (failure (par s) er) as [dealt p]. sched_simpl.
      destruct dealt; [|destruct (is_dead _)]; intros [= <-];
        unfold par_inv; sched_simpl; lia.
    + destruct (success_bounds (par s) Hi Hmax) as [Hf Hfm].
      pose proof (success_rel (par s) Hi Hmax Hrel) as Hsr.
      intros [= <-]. unfold par_inv. sched_simpl. lia.
  - (* Retry *)
    unfold on_retry. sched_simpl.
    destruct (byEndpoint s !! e) as [epq|]; sched_simpl; [|done].
    destruct (is_dead _); intros [= <-]; by unfold par_inv.
  - (* Flush *)
    unfold on_flush.
    destruct (queued s !! loc) as [r|]; [|intros [= <-]; by unfold par_inv].
    destruct (heap s !! r); sched_simpl; [|done].
    intros [= <-]. by unfold par_inv.
  - intros [= <-]. by unfold par_inv.
Qed.

Lemma turn_par_inv (a : action) (sws : list sweep) (s s' : sched) :
  par_inv s → enabled a s → turn a sws s = Some s' → par_inv s'.
Proof.
  intros Hinv Hen. unfold turn, scheduler_step.
  destruct (handle (event_of a) (prepare a s)) as [s1|] eqn:Hh.
  - pose proof (handle_par_inv a s s1 Hinv Hen Hh) as H1.
    destruct a; simpl; try (by apply fill_par_inv).
    by intros [= <-].
  - by destruct a.
Qed.

Lemma reachable_par_inv (s : sched) : reachable s → par_inv s.
Proof.
  induction 1 as [|s a sws s' _ IH Hen _ Ht].
  - by vm_compute.
  - by apply (turn_par_inv a sws s s').
Qed.

(* The state after a part of a pass is the state the whole pass goes
   through: the pass goes on from there, or it has returned there. *)
Lemma pickAndQueue_prefix (sw1 sw2 : sweep) :
  ∀ sent s,
    (∃ sent', pickAndQueue (sw1 ++ sw2) sent s
              = pickAndQueue sw2 sent' (pickAndQueue sw1 sent s).2)
    ∨ pickAndQueue (sw1 ++ sw2) sent s = (false, (pickAndQueue sw1 sent s).2).
Proof.
  induction sw1 as [|[e room] sw1 IH]; intros sent s; simpl.
  - left. by exists sent.
  - destruct (negb (ok (par s))); [by right|].
    destruct (byEndpoint s !! e) as [q|]; [|apply IH].
    destruct (is_dead (state q)); [apply IH|].
    destruct (queue q) as [|r rest]; [apply IH|].
    destruct room; [apply IH | by right].
Qed.


Lemma halved1_reachable : reachable halved1.
Proof.
  apply (run_check_reachable run2 init); [apply reach_init | by vm_compute].
Qed.




(** ** Uniqueness of pending requests *)

Lemma in_queue_insert (s s' : sched) (e0 e : Endpoint) (q' : endpointQueue)
    (x : ptr) :
  byEndpoint s' = <[e0 := q']> (byEndpoint s) →
  in_queue s' e x ↔ (e = e0 ∧ x ∈ queue q') ∨ (e ≠ e0 ∧ in_queue s e x).
Proof.
  intros Hm. unfold in_queue. rewrite Hm. destruct (decide (e = e0)) as [->|Hne].
  - rewrite lookup_insert_eq. split.
    + intros (q & [= <-] & Hx). by left.
    + intros [[_ Hx]|[Hne _]]; [by exists q' | done].
  - rewrite lookup_insert_ne by done. split.
    + intros H. by right.
    + intros [[He _]|[_ H]]; done.
Qed.

Lemma in_queue_same (s s' : sched) (e : Endpoint) (x : ptr) :
  byEndpoint s' = byEndpoint s → in_queue s' e x ↔ in_queue s e x.
Proof. unfold in_queue. by intros ->. Qed.

Lemma is_Some_insert_mono (m : gmap Endpoint endpointQueue) (e0 e : Endpoint)
    (q' : endpointQueue) :
  is_Some (m !! e) → is_Some (<[e0 := q']> m !! e).
Proof.
  intros H. destruct (decide (e = e0)) as [->|Hne].
  - rewrite lookup_insert_eq. eauto.
  - by rewrite lookup_insert_ne.
Qed.

Lemma ptr_inv_init : ptr_inv init.
Proof.
  split; unfold pending_for, held, in_queue, loc_of; simpl.
  - intros loc r. rewrite lookup_empty. split; [done|].
    intros [[H|(e & q & H & _)] _]; [by apply elem_of_nil in H|].
    by rewrite lookup_empty in H.
  - intros e r (q & H & _). by rewrite lookup_empty in H.
  - intros e q H. by rewrite lookup_empty in H.
  - constructor.
  - intros r H. by apply elem_of_nil in H.
  - intros e H. by apply elem_of_nil in H.
Qed.

(* Changes of the heap that keep the locations keep the invariant. *)
Lemma ptr_inv_heap (s : sched) (h : gmap ptr request) :
  (∀ r, held s r → Loc <$> h !! r = loc_of s r) →
  ptr_inv s → ptr_inv (set_heap h s).
Proof.
  intros Hh [H1 H2 H3 H4 H5 H6].
  assert (∀ r, held (set_heap h s) r ↔ held s r) as Hheld by done.
  assert (∀ r, held s r → loc_of (set_heap h s) r = loc_of s r) as Hloc
    by (intros r Hr; by apply Hh).
  split; sched_simpl.
  - intros loc r. rewrite H1. unfold pending_for. rewrite Hheld.
    split; intros [Hr Hl]; (split; [done|]); [by rewrite Hloc | by rewrite <- Hloc].
  - intros e r Hq. destruct (H2 e r Hq) as [Hd Hl]. split; [done|].
    rewrite Hloc; [done|]. right. by exists e.
  - done.
  - done.
  - intros r Hr. destruct (H5 r Hr) as (loc & Hl & Hs). exists loc.
    split; [|done]. rewrite Hloc; [done | by left].
  - done.
Qed.

Lemma held_loc_of (s : sched) (r : ptr) :
  ptr_inv s → held s r → is_Some (loc_of s r).
Proof.
  intros Hinv [Hd|[e Hq]].
  - destruct (pi_disp s Hinv r Hd) as (loc & -> & _). eauto.
  - destruct (pi_queue s Hinv e r Hq) as [_ Hl].
    destruct (loc_of s r); [eauto | done].
Qed.

Lemma ptr_inv_prepare (a : action) (s : sched) :
  enabled a s → ptr_inv s → ptr_inv (prepare a s).
Proof.
  intros [_ Hen] Hinv. destruct a as [r loc|r e|e|loc c|]; simpl; try done.
  - apply ptr_inv_heap; [|done]. intros x Hx.
    destruct (held_loc_of s x Hinv Hx) as [l Hl]. unfold loc_of in *.
    rewrite lookup_insert_ne; [done|]. intros <-. by rewrite Hen in Hl.
  - apply ptr_inv_heap; [|done]. intros x Hx. unfold loc_of.
    destruct (decide (x = r)) as [->|Hne].
    + rewrite lookup_alter_eq. by destruct (heap s !! r).
    + by rewrite lookup_alter_ne.
Qed.

(* The queue a request joins: the one of its endpoint, or a new one. *)
Lemma in_queue_default (s : sched) (e : Endpoint) (x : ptr) :
  x ∈ queue (default (mkQueue [] unknown) (byEndpoint s !! e)) ↔ in_queue s e x.
Proof.
  unfold in_queue. destruct (byEndpoint s !! e) as [q|]; simpl.
  - split; [intros H; by exists q | by intros (q' & [= <-] & H)].
  - split; [by intros H%elem_of_nil | by intros (q' & ? & _)].
Qed.

Lemma on_request_unfold (s : sched) (r : ptr) (req : request) :
  heap s !! r = Some req →
  on_request r s =
    match queued s !! Loc req with
    | Some _ => Some s
    | None =>
        let epq := default (mkQueue [] unknown)
                     (byEndpoint s !! LocEndpoint (Loc req)) in
        Some (mkSched (heap s)
                (<[LocEndpoint (Loc req) := mkQueue (queue epq ++ [r]) (state epq)]>
                   (byEndpoint s))
                (<[Loc req := r]> (queued s))
                (dispatched s) (closed s) (timers s) (par s) (terminated s))
    end.
Proof. intros Hr. unfold on_request. rewrite Hr. sched_simpl. done. Qed.

Lemma on_request_ptr_inv (s s' : sched) (r : ptr) :
  ptr_inv s → ¬ held s r → on_request r s = Some s' → ptr_inv s'.
Proof.
  intros Hinv Hnh. destruct (heap s !! r) as [req|] eqn:Hr;
    [|unfold on_request; by rewrite Hr].
  rewrite (on_request_unfold s r req Hr).
  destruct (queued s !! Loc req) as [r0|] eqn:Hq; [by intros [= <-]|].
  cbv zeta. intros [= <-].
  set (e := LocEndpoint (Loc req)).
  set (epq := default (mkQueue [] unknown) (byEndpoint s !! e)).
  set (s' := mkSched _ _ _ _ _ _ _ _).
  assert (loc_of s r = Some (Loc req)) as Hlr by (unfold loc_of; by rewrite Hr).
  assert (∀ e' x, in_queue s' e' x ↔ in_queue s e' x ∨ (e' = e ∧ x = r)) as Hiq.
  { intros e' x.
    rewrite (in_queue_insert s s' e e' (mkQueue (queue epq ++ [r]) (state epq)) x eq_refl).
    cbn [queue]. rewrite elem_of_app, list_elem_of_singleton.
    unfold epq. rewrite in_queue_default.
    destruct (decide (e' = e)) as [->|]; tauto. }
  assert (∀ x, held s' x ↔ held s x ∨ x = r) as Hheld.
  { intros x. unfold held. change (dispatched s') with (dispatched s). split.
    - intros [Hd|[e' He']]; [tauto|]. apply Hiq in He' as [He'|[_ ->]]; eauto.
    - intros [[Hd|[e' He']]| ->]; [tauto | |].
      + right. exists e'. apply Hiq. tauto.
      + right. exists e. apply Hiq. tauto. }
  destruct Hinv as [H1 H2 H3 H4 H5 H6]. split.
  - intros loc x. unfold pending_for. rewrite Hheld.
    change (queued s') with (<[Loc req := r]> (queued s)).
    change (loc_of s' x) with (loc_of s x).
    destruct (decide (loc = Loc req)) as [->|Hne].
    + rewrite lookup_insert_eq. split.
      * intros [= <-]. tauto.
      * intros [[Hx| ->] Hl]; [|done].
        assert (queued s !! Loc req = Some x) as Hc by (apply H1; by split).
        congruence.
    + rewrite lookup_insert_ne by done. rewrite H1. unfold pending_for. split.
      * tauto.
      * intros [[Hx| ->] Hl]; [tauto | congruence].
  - intros e' x Hx. change (dispatched s') with (dispatched s).
    change (loc_of s' x) with (loc_of s x).
    apply Hiq in Hx as [Hx|[-> ->]]; [by apply H2|].
    split; [intros Hd; apply Hnh; by left | by rewrite Hlr].
  - intros e' q. change (byEndpoint s') with
      (<[e := mkQueue (queue epq ++ [r]) (state epq)]> (byEndpoint s)).
    destruct (decide (e' = e)) as [->|Hne].
    + rewrite lookup_insert_eq. intros [= <-]. cbn [queue].
      apply NoDup_app. split; [|split].
      * unfold epq. destruct (byEndpoint s !! e) as [q0|] eqn:E; simpl;
          [by apply (H3 e) | constructor].
      * intros x Hx ->%list_elem_of_singleton. apply Hnh. right. exists e.
        by apply in_queue_default.
      * apply NoDup_singleton.
    + rewrite lookup_insert_ne by done. apply H3.
  - done.
  - intros x Hx. destruct (H5 x Hx) as (loc & Hl & Hs). exists loc.
    split; [done|]. by apply is_Some_insert_mono.
  - intros e' He'. apply is_Some_insert_mono. by apply H6.
Qed.

Lemma elem_of_remove1_NoDup {A} `{EqDecision A} (x y : A) (l : list A) :
  NoDup l → y ∈ remove1 x l ↔ y ∈ l ∧ y ≠ x.
Proof.
  intros Hnd. destruct (NoDup_remove1 x l Hnd) as [_ Hx]. split.
  - intros Hy. split; [by apply elem_of_remove1 in Hy | by intros ->].
  - intros [Hy Hne]. by apply elem_of_remove1_ne.
Qed.

(* A request with the writers is in no queue. *)
Lemma dispatched_not_queued (s : sched) (r : ptr) (e : Endpoint) :
  ptr_inv s → r ∈ dispatched s → ¬ in_queue s e r.
Proof. intros Hinv Hd Hq. by destruct (pi_queue s Hinv e r Hq). Qed.

(* Changes that leave the requests where they are keep the invariant. *)
Lemma ptr_inv_ext (s s' : sched) :
  heap s' = heap s → byEndpoint s' = byEndpoint s → queued s' = queued s →
  dispatched s' = dispatched s → (∀ e, e ∈ timers s' → e ∈ timers s) →
  ptr_inv s → ptr_inv s'.
Proof.
  intros Hh Hm Hi Hd Ht [H1 H2 H3 H4 H5 H6].
  split; unfold pending_for, held, in_queue, loc_of in *;
    rewrite ?Hh, ?Hm, ?Hi, ?Hd; try done.
  intros e He. by apply H6, Ht.
Qed.

(* The state of a queue changes, its requests stay. *)
Lemma restate_ptr_inv (s s' : sched) (e : Endpoint) (epq : endpointQueue)
    (st : qstate) :
  byEndpoint s !! e = Some epq →
  heap s' = heap s →
  byEndpoint s' = <[e := mkQueue (queue epq) st]> (byEndpoint s) →
  queued s' = queued s → dispatched s' = dispatched s →
  (∀ e', e' ∈ timers s' → e' ∈ timers s) →
  ptr_inv s → ptr_inv s'.
Proof.
  intros He Hh Hm Hi Hd Ht [H1 H2 H3 H4 H5 H6].
  assert (∀ e' x, in_queue s' e' x ↔ in_queue s e' x) as Hiq.
  { intros e' x. rewrite (in_queue_insert s s' e e' _ x Hm). cbn [queue].
    unfold in_queue. destruct (decide (e' = e)) as [->|Hne].
    - rewrite He. split.
      + intros [[_ Hx]|[? _]]; [by exists epq | done].
      + intros (q & [= <-] & Hx). by left.
    - tauto. }
  assert (∀ x, loc_of s' x = loc_of s x) as Hloc
    by (intros x; unfold loc_of; by rewrite Hh).
  assert (∀ x, held s' x ↔ held s x) as Hheld.
  { intros x. unfold held. rewrite Hd. by setoid_rewrite Hiq. }
  split.
  - intros loc x. unfold pending_for. by rewrite Hi, Hheld, Hloc.
  - intros e' x Hx. rewrite Hd, Hloc. apply H2. by apply Hiq.
  - intros e' q. rewrite Hm. destruct (decide (e' = e)) as [->|Hne].
    + rewrite lookup_insert_eq. intros [= <-]. cbn [queue]. by apply (H3 e epq).
    + rewrite lookup_insert_ne by done. apply H3.
  - by rewrite Hd.
  - intros x. rewrite Hd, Hm. intros Hx. destruct (H5 x Hx) as (loc & Hl & Hs).
    exists loc. rewrite Hloc. split; [done|]. by apply is_Some_insert_mono.
  - intros e' He'. rewrite Hm. apply is_Some_insert_mono. by apply H6, Ht.
Qed.

(* A failed request goes from the writers to the tail of its queue. *)
Lemma requeue_ptr_inv (s s' : sched) (r : ptr) (loc : Location)
    (epq : endpointQueue) (st : qstate) :
  r ∈ dispatched s → loc_of s r = Some loc →
  byEndpoint s !! LocEndpoint loc = Some epq →
  heap s' = heap s →
  byEndpoint s'
  = <[LocEndpoint loc := mkQueue (queue epq ++ [r]) st]> (byEndpoint s) →
  queued s' = queued s → dispatched s' = remove1 r (dispatched s) →
  (∀ e', e' ∈ timers s' → e' ∈ timers s ∨ e' = LocEndpoint loc) →
  ptr_inv s → ptr_inv s'.
Proof.
  intros Hr Hlr He Hh Hm Hi Hd Ht Hinv.
  pose proof Hinv as [H1 H2 H3 H4 H5 H6].
  set (e := LocEndpoint loc) in *.
  assert (∀ e' x, in_queue s' e' x ↔ in_queue s e' x ∨ (e' = e ∧ x = r)) as Hiq.
  { intros e' x. rewrite (in_queue_insert s s' e e' _ x Hm). cbn [queue].
    rewrite elem_of_app, list_elem_of_singleton. unfold in_queue.
    destruct (decide (e' = e)) as [->|Hne].
    - rewrite He. split.
      + intros [[_ [Hx|Hx]]|[? _]]; [left; by exists epq | by right | done].
      + intros [(q & [= <-] & Hx)|[_ ->]]; left; tauto.
    - tauto. }
  assert (∀ x, x ∈ dispatched s' ↔ x ∈ dispatched s ∧ x ≠ r) as Hdisp.
  { intros x. rewrite Hd. by apply elem_of_remove1_NoDup. }
  assert (∀ x, loc_of s' x = loc_of s x) as Hloc
    by (intros x; unfold loc_of; by rewrite Hh).
  assert (∀ x, held s' x ↔ held s x) as Hheld.
  { intros x. unfold held. rewrite Hdisp. setoid_rewrite Hiq. split.
    - intros [[Hx _]|[e' [Hx|[_ ->]]]]; [by left | right; by exists e' | by left].
    - intros [Hx|[e' Hx]]; [|right; exists e'; by left].
      destruct (decide (x = r)) as [->|Hne]; [right; exists e; by right | by left]. }
  split.
  - intros l x. unfold pending_for. by rewrite Hi, Hheld, Hloc.
  - intros e' x Hx. rewrite Hdisp, Hloc. apply Hiq in Hx as [Hx|[-> ->]].
    + destruct (H2 e' x Hx) as [Hnd Hl]. split; [tauto | done].
    + split; [tauto | by rewrite Hlr].
  - intros e' q. rewrite Hm. destruct (decide (e' = e)) as [->|Hne].
    + rewrite lookup_insert_eq. intros [= <-]. cbn [queue].
      apply NoDup_app. split; [by apply (H3 e epq)|]. split; [|apply NoDup_singleton].
      intros x Hx ->%list_elem_of_singleton.
      apply (dispatched_not_queued s r e Hinv Hr). by exists epq.
    + rewrite lookup_insert_ne by done. apply H3.
  - rewrite Hd. by apply NoDup_remove1.
  - intros x [Hx _]%Hdisp. destruct (H5 x Hx) as (l & Hl & Hs).
    exists l. rewrite Hloc, Hm. split; [done|]. by apply is_Some_insert_mono.
  - intros e' He'. rewrite Hm. destruct (Ht e' He') as [Hold| ->].
    + apply is_Some_insert_mono. by apply H6.
    + rewrite lookup_insert_eq. eauto.
Qed.

(* A request written back leaves the writers and the index. *)
Lemma finish_ptr_inv (s s' : sched) (r : ptr) (loc : Location)
    (epq : endpointQueue) (st : qstate) :
  r ∈ dispatched s → loc_of s r = Some loc →
  byEndpoint s !! LocEndpoint loc = Some epq →
  heap s' = heap s →
  byEndpoint s' = <[LocEndpoint loc := mkQueue (queue epq) st]> (byEndpoint s) →
  queued s' = delete loc (queued s) → dispatched s' = remove1 r (dispatched s) →
  (∀ e', e' ∈ timers s' → e' ∈ timers s) →
  ptr_inv s → ptr_inv s'.
Proof.
  intros Hr Hlr He Hh Hm Hi Hd Ht Hinv.
  pose proof Hinv as [H1 H2 H3 H4 H5 H6].
  set (e := LocEndpoint loc) in *.
  assert (∀ e' x, in_queue s' e' x ↔ in_queue s e' x) as Hiq.
  { intros e' x. rewrite (in_queue_insert s s' e e' _ x Hm). cbn [queue].
    unfold in_queue. destruct (decide (e' = e)) as [->|Hne].
    - rewrite He. split.
      + intros [[_ Hx]|[? _]]; [by exists epq | done].
      + intros (q & [= <-] & Hx). by left.
    - tauto. }
  assert (∀ x, x ∈ dispatched s' ↔ x ∈ dispatched s ∧ x ≠ r) as Hdisp.
  { intros x. rewrite Hd. by apply elem_of_remove1_NoDup. }
  assert (∀ x, loc_of s' x = loc_of s x) as Hloc
    by (intros x; unfold loc_of; by rewrite Hh).
  assert (∀ x, held s' x ↔ held s x ∧ x ≠ r) as Hheld.
  { intros x. unfold held. rewrite Hdisp. setoid_rewrite Hiq. split.
    - intros [[Hx Hne]|[e' Hx]]; [split; [by left | done]|].
      split; [right; by exists e'|]. intros ->.
      by apply (dispatched_not_queued s r e' Hinv Hr).
    - intros [[Hx|Hx] Hne]; [left; by split | by right]. }
  assert (held s r) as Hhr by (by left).
  split.
  - intros l x. unfold pending_for. rewrite Hi, Hheld, Hloc.
    destruct (decide (l = loc)) as [->|Hne].
    + rewrite lookup_delete_eq. split; [done|]. intros [[Hx Hxr] Hl].
      destruct Hxr. assert (queued s !! loc = Some x) as Hqx by (by apply H1).
      assert (queued s !! loc = Some r) as Hqr by (by apply H1). congruence.
    + rewrite lookup_delete_ne by done. rewrite H1. unfold pending_for. split.
      * intros [Hx Hl]. split; [split; [done|] | done]. intros ->. congruence.
      * tauto.
  - intros e' x Hx. rewrite Hdisp, Hloc. apply Hiq in Hx.
    destruct (H2 e' x Hx) as [Hnd Hl]. split; [tauto | done].
  - intros e' q. rewrite Hm. destruct (decide (e' = e)) as [->|Hne].
    + rewrite lookup_insert_eq. intros [= <-]. cbn [queue]. by apply (H3 e epq).
    + rewrite lookup_insert_ne by done. apply H3.
  - rewrite Hd. by apply NoDup_remove1.
  - intros x [Hx _]%Hdisp. destruct (H5 x Hx) as (l & Hl & Hs).
    exists l. rewrite Hloc, Hm. split; [done|]. by apply is_Some_insert_mono.
  - intros e' He'. rewrite Hm. apply is_Some_insert_mono. by apply H6, Ht.
Qed.

(* The head of a queue goes to the writers. *)
Lemma dispatch_ptr_inv (s s' : sched) (e : Endpoint) (q : endpointQueue)
    (r : ptr) (rest : list ptr) (st : qstate) :
  byEndpoint s !! e = Some q → queue q = r :: rest →
  heap s' = heap s →
  byEndpoint s' = <[e := mkQueue rest st]> (byEndpoint s) →
  queued s' = queued s → dispatched s' = dispatched s ++ [r] →
  timers s' = timers s →
  ptr_inv s → ptr_inv s'.
Proof.
  intros He Hq Hh Hm Hi Hd Ht Hinv.
  pose proof Hinv as [H1 H2 H3 H4 H5 H6].
  assert (in_queue s e r) as Hr by (exists q; rewrite Hq; split; [done | by left]).
  destruct (H2 e r Hr) as [Hrd Hre].
  pose proof (H3 e q He) as Hnd. rewrite Hq in Hnd.
  apply NoDup_cons in Hnd as [Hrr Hnd].
  assert (∀ e' x, in_queue s' e' x ↔ in_queue s e' x ∧ x ≠ r) as Hiq.
  { intros e' x. rewrite (in_queue_insert s s' e e' _ x Hm). cbn [queue].
    destruct (decide (e' = e)) as [->|Hne].
    - unfold in_queue. rewrite He. split.
      + intros [[_ Hx]|[? _]]; [|done]. split; [|by intros ->].
        exists q. rewrite Hq. split; [done | by right].
      + intros [(q' & [= <-] & Hx) Hxr]. left. split; [done|].
        rewrite Hq in Hx. by apply elem_of_cons in Hx as [|].
    - split.
      + intros [[? _]|[_ Hx]]; [done|]. split; [done|]. intros ->.
        destruct (H2 e' r Hx) as [_ Hre']. congruence.
      + intros [Hx _]. by right. }
  assert (∀ x, x ∈ dispatched s' ↔ x ∈ dispatched s ∨ x = r) as Hdisp.
  { intros x. by rewrite Hd, elem_of_app, list_elem_of_singleton. }
  assert (∀ x, loc_of s' x = loc_of s x) as Hloc
    by (intros x; unfold loc_of; by rewrite Hh).
  assert (∀ x, held s' x ↔ held s x) as Hheld.
  { intros x. unfold held. rewrite Hdisp. setoid_rewrite Hiq. split.
    - intros [[Hx| ->]|[e' [Hx _]]];
        [by left | right; by exists e | right; by exists e'].
    - intros [Hx|[e' Hx]]; [left; by left|].
      destruct (decide (x = r)) as [->|Hne]; [left; by right|].
      right. by exists e'. }
  split.
  - intros l x. unfold pending_for. by rewrite Hi, Hheld, Hloc.
  - intros e' x [Hx Hxr]%Hiq. rewrite Hdisp, Hloc.
    destruct (H2 e' x Hx) as [Hxd Hl]. split; [tauto | done].
  - intros e' q'. rewrite Hm. destruct (decide (e' = e)) as [->|Hne].
    + rewrite lookup_insert_eq. by intros [= <-].
    + rewrite lookup_insert_ne by done. apply H3.
  - rewrite Hd. apply NoDup_app. split; [done|]. split; [|apply NoDup_singleton].
    by intros x Hx ->%list_elem_of_singleton.
  - intros x. rewrite Hdisp, Hloc, Hm. intros [Hx| ->].
    + destruct (H5 x Hx) as (l & Hl & Hs). exists l. split; [done|].
      by apply is_Some_insert_mono.
    + destruct (loc_of s r) as [l|] eqn:El; [|done]. exists l. split; [done|].
      injection Hre as ->. rewrite lookup_insert_eq. eauto.
  - intros e'. rewrite Ht, Hm. intros He'. apply is_Some_insert_mono. by apply H6.
Qed.

Lemma handle_ptr_inv (a : action) (s s' : sched) :
  ptr_inv s → enabled a s →
  handle (event_of a) (prepare a s) = Some s' → ptr_inv s'.
Proof.
  intros Hinv Hen. pose proof (ptr_inv_prepare a s Hen Hinv) as Hinv0.
  destruct Hen as [_ Hen]. destruct a as [r loc|r e|e|loc c|]; simpl in *.
  - (* Submit *)
    apply on_request_ptr_inv; [done|]. intros Hh.
    destruct (held_loc_of s r Hinv Hh) as [l Hl]. unfold loc_of in Hl.
    by rewrite Hen in Hl.
  - (* Complete *)
    set (s0 := set_err r e s) in *.
    assert (r ∈ dispatched s0) as Hr by done.
    destruct (pi_disp s0 Hinv0 r Hr) as (loc & Hl & [epq Hq]).
    destruct (heap s0 !! r) as [req|] eqn:Hreq;
      [|unfold loc_of in Hl; by rewrite Hreq in Hl].
    assert (Loc req = loc) as Hloc
      by (unfold loc_of in Hl; rewrite Hreq in Hl; by injection Hl).
    rewrite <- Hloc in Hq. destruct (err req) as [er|] eqn:Her.
    + rewrite (on_done_failed s0 r req er epq Hreq Her Hq). cbv zeta.
      destruct (_ || _); intros [= <-];
        (eapply (requeue_ptr_inv s0 _ r loc epq);
         [done | done | by rewrite <- Hloc | done | by rewrite <- Hloc
         | done | done | | done]); sched_simpl; intros e'.
      * by left.
      * rewrite elem_of_app, list_elem_of_singleton, Hloc. tauto.
    + rewrite (on_done_succeeded s0 r req epq Hreq Her Hq). intros [= <-].
      eapply (finish_ptr_inv s0 _ r loc epq);
        [done | done | by rewrite <- Hloc | done | by rewrite <- Hloc
        | by rewrite <- Hloc | done | done | done].
  - (* Retry *)
    unfold on_retry. sched_simpl.
    destruct (byEndpoint s !! e) as [epq|] eqn:Hq; sched_simpl; [|done].
    destruct (is_dead (state epq)); intros [= <-].
    + eapply (restate_ptr_inv s _ e epq unknown); try done.
      sched_simpl. intros e'. apply elem_of_remove1.
    + eapply (ptr_inv_ext s); try done. sched_simpl. intros e'.
      apply elem_of_remove1.
  - (* Flush *)
    unfold on_flush. destruct (queued s !! loc) as [r|] eqn:Hq.
    + destruct (heap s !! r) as [req|] eqn:Hreq; sched_simpl; [|done].
      intros [= <-]. apply ptr_inv_heap; [|done]. intros x _. unfold loc_of.
      destruct (decide (x = r)) as [->|Hne].
      * by rewrite lookup_insert_eq, Hreq.
      * by rewrite lookup_insert_ne.
    + intros [= <-]. by eapply (ptr_inv_ext s).
  - (* Die *)
    intros [= <-]. by eapply (ptr_inv_ext s).
Qed.

Lemma pickAndQueue_ptr_inv (sw : sweep) :
  ∀ sent s, ptr_inv s → ptr_inv (pickAndQueue sw sent s).2.
Proof.
  induction sw as [|[e room] sw IH]; intros sent s Hinv; simpl; [done|].
  destruct (ok (par s)); cbn [negb]; [|done].
  destruct (byEndpoint s !! e) as [q|] eqn:Hq; [|by apply IH].
  destruct (is_dead (state q)); [by apply IH|].
  destruct (queue q) as [|r rest] eqn:Hr; [by apply IH|].
  destruct room; [|done]. apply IH.
  by eapply (dispatch_ptr_inv s _ e q r rest).
Qed.

Lemma fill_ptr_inv (sws : list sweep) :
  ∀ s s', ptr_inv s → fill sws s = Some s' → ptr_inv s'.
Proof.
  induction sws as [|sw sws IH]; intros s s' Hinv; simpl; [done|].
  pose proof (pickAndQueue_ptr_inv sw false s Hinv) as H1.
  destruct (pickAndQueue sw false s) as [[] s1]; simpl in H1.
  - by apply IH.
  - by intros [= <-].
Qed.

Lemma turn_ptr_inv (a : action) (sws : list sweep) (s s' : sched) :
  ptr_inv s → enabled a s → turn a sws s = Some s' → ptr_inv s'.
Proof.
  intros Hinv Hen. unfold turn, scheduler_step.
  destruct (handle (event_of a) (prepare a s)) as [s1|] eqn:Hh.
  - pose proof (handle_ptr_inv a s s1 Hinv Hen Hh) as H1.
    destruct a; simpl; try (by apply fill_ptr_inv).
    by intros [= <-].
  - by destruct a.
Qed.

Lemma reachable_ptr_inv (s : sched) : reachable s → ptr_inv s.
Proof.
  induction 1 as [|s a sws s' _ IH Hen _ Ht].
  - apply ptr_inv_init.
  - by apply (turn_ptr_inv a sws s s').
Qed.

(** ** Flush channels *)

Lemma chan_inv_init : chan_inv init.
Proof.
  split; simpl.
  - constructor.
  - intros loc r H. by rewrite lookup_empty in H.
  - intros loc1 loc2 r1 r2 c H. by rewrite lookup_empty in H.
Qed.

(* Changes away from the index, the waiters and the closed channels. *)
Lemma chan_inv_ext (s s' : sched) :
  queued s' = queued s → closed s' = closed s →
  (∀ loc r, queued s !! loc = Some r → waiters s' r = waiters s r) →
  chan_inv s → chan_inv s'.
Proof.
  intros Hi Hc Hw [H1 H2 H3]. split.
  - by rewrite Hc.
  - intros loc r Hr. rewrite Hi in Hr. rewrite Hc, (Hw loc r Hr). by apply (H2 loc).
  - intros loc1 loc2 r1 r2 c Hr1 Hr2. rewrite Hi in Hr1, Hr2.
    rewrite (Hw loc1 r1 Hr1), (Hw loc2 r2 Hr2). by apply (H3 loc1 loc2).
Qed.

(* A request of the index is allocated. *)
Lemma indexed_heap (s : sched) (loc : Location) (r : ptr) :
  ptr_inv s → queued s !! loc = Some r →
  ∃ req, heap s !! r = Some req ∧ Loc req = loc.
Proof.
  intros Hinv Hr. apply (pi_index s Hinv) in Hr as [_ Hl]. unfold loc_of in Hl.
  destruct (heap s !! r) as [req|]; [|done]. exists req. split; [done|].
  by injection Hl.
Qed.

Lemma chan_inv_prepare (a : action) (s : sched) :
  ptr_inv s → enabled a s → chan_inv s → chan_inv (prepare a s).
Proof.
  intros Hinv [_ Hen] Hc. destruct a as [r loc|r e|e|loc c|]; simpl; try done.
  - apply (chan_inv_ext s); [done | done | | done]. intros l x Hx.
    destruct (indexed_heap s l x Hinv Hx) as (req & Hreq & _).
    unfold waiters, new_request. sched_simpl.
    rewrite lookup_insert_ne; [done|]. intros <-. congruence.
  - apply (chan_inv_ext s); [done | done | | done]. intros l x Hx.
    unfold waiters, set_err. sched_simpl.
    destruct (decide (x = r)) as [->|Hne].
    + rewrite lookup_alter_eq. by destruct (heap s !! r).
    + by rewrite lookup_alter_ne.
Qed.

Lemma handle_chan_inv (a : action) (s s' : sched) :
  ptr_inv s → chan_inv s → enabled a s →
  handle (event_of a) (prepare a s) = Some s' → chan_inv s'.
Proof.
  intros Hinv Hc Hen. pose proof (ptr_inv_prepare a s Hen Hinv) as Hinv0.
  pose proof (chan_inv_prepare a s Hinv Hen Hc) as Hc0.
  destruct Hen as [_ Hen]. destruct a as [r loc|r e|e|loc c|]; simpl in *.
  - (* Submit *)
    set (s0 := new_request r loc s) in *.
    assert (heap s0 !! r = Some (mkRequest loc None [])) as Hr
      by apply lookup_insert_eq.
    rewrite (on_request_unfold s0 r _ Hr). cbn [Loc].
    destruct (queued s0 !! loc) as [r0|] eqn:Hq; [by intros [= <-]|].
    cbv zeta. intros [= <-]. destruct Hc0 as [H1 H2 H3].
    assert (waiters s0 r = []) as Hwr by (unfold waiters; by rewrite Hr).
    split; sched_simpl.
    + done.
    + intros l x. destruct (decide (l = loc)) as [->|Hne].
      * rewrite lookup_insert_eq. intros [= <-].
        change (waiters _ r) with (waiters s0 r). rewrite Hwr.
        split; [constructor | by intros c ?%elem_of_nil].
      * rewrite lookup_insert_ne by done. apply H2.
    + intros l1 l2 x1 x2 c Hx1 Hx2.
      change (waiters _ x1) with (waiters s0 x1).
      change (waiters _ x2) with (waiters s0 x2).
      destruct (decide (l1 = loc)) as [->|Hne1].
      { rewrite lookup_insert_eq in Hx1. injection Hx1 as <-.
        rewrite Hwr. by intros ?%elem_of_nil. }
      destruct (decide (l2 = loc)) as [->|Hne2].
      { rewrite lookup_insert_eq in Hx2. injection Hx2 as <-.
        rewrite Hwr. by intros _ ?%elem_of_nil. }
      rewrite lookup_insert_ne in Hx1, Hx2 by done. by apply (H3 l1 l2).
  - (* Complete *)
    set (s0 := set_err r e s) in *.
    assert (r ∈ dispatched s0) as Hr by done.
    destruct (pi_disp s0 Hinv0 r Hr) as (loc & Hl & [epq Hq]).
    destruct (heap s0 !! r) as [req|] eqn:Hreq;
      [|unfold loc_of in Hl; by rewrite Hreq in Hl].
    assert (Loc req = loc) as Hloc
      by (unfold loc_of in Hl; rewrite Hreq in Hl; by injection Hl).
    rewrite <- Hloc in Hq. destruct (err req) as [er|] eqn:Her.
    + rewrite (on_done_failed s0 r req er epq Hreq Her Hq). cbv zeta.
      destruct (_ || _); intros [= <-]; by apply (chan_inv_ext s0).
    + rewrite (on_done_succeeded s0 r req epq Hreq Her Hq). intros [= <-].
      assert (queued s0 !! loc = Some r) as Hir.
      { apply (pi_index s0 Hinv0). split; [by left | done]. }
      assert (waiters s0 r = flushChans req) as Hwr
        by (unfold waiters; by rewrite Hreq).
      destruct Hc0 as [H1 H2 H3]. destruct (H2 loc r Hir) as [Hnd Hnc].
      assert (∀ l x, delete (Loc req) (queued s0) !! l = Some x →
                     queued s0 !! l = Some x ∧ x ≠ r) as Hdel.
      { intros l x. rewrite Hloc. destruct (decide (l = loc)) as [->|Hne].
        - by rewrite lookup_delete_eq.
        - rewrite lookup_delete_ne by done. intros Hx. split; [done|].
          intros ->. apply (pi_index s0 Hinv0) in Hx as [_ Hx]. congruence. }
      split; sched_simpl.
      * rewrite <- Hwr. apply NoDup_app. split; [done|]. split; [|done].
        intros c Hcl Hcw. by apply (Hnc c).
      * intros l x [Hx Hne]%Hdel. change (waiters _ x) with (waiters s0 x).
        destruct (H2 l x Hx) as [Hndx Hncx]. split; [done|].
        intros c Hcx. rewrite elem_of_app. intros [Hcl|Hcw]; [by apply (Hncx c)|].
        apply Hne. apply (H3 l loc x r c); [done | done | done |].
        by rewrite Hwr.
      * intros l1 l2 x1 x2 c [Hx1 _]%Hdel [Hx2 _]%Hdel.
        by apply (H3 l1 l2).
  - (* Retry *)
    unfold on_retry. sched_simpl.
    destruct (byEndpoint s !! e) as [epq|] eqn:Hq; sched_simpl; [|done].
    destruct (is_dead (state epq)); intros [= <-]; by apply (chan_inv_ext s).
  - (* Flush *)
    destruct Hen as [Hfc Hfw]. destruct Hc as [H1 H2 H3].
    assert (∀ x, c ∉ waiters s x) as Hfresh.
    { intros x. unfold waiters. destruct (heap s !! x) as [req|] eqn:Hx; simpl.
      - by apply (Hfw x req).
      - by intros ?%elem_of_nil. }
    unfold on_flush. destruct (queued s !! loc) as [r|] eqn:Hq.
    + destruct (heap s !! r) as [req|] eqn:Hreq; sched_simpl; [|done].
      intros [= <-].
      set (s' := set_heap _ s).
      assert (waiters s' r = waiters s r ++ [c]) as Hwr.
      { unfold waiters, s'. sched_simpl. by rewrite lookup_insert_eq, Hreq. }
      assert (∀ x, x ≠ r → waiters s' x = waiters s x) as Hwx.
      { intros x Hne. unfold waiters, s'. sched_simpl.
        by rewrite lookup_insert_ne. }
      assert (∀ x c', c' ∈ waiters s' x → c' ∈ waiters s x ∨ (c' = c ∧ x = r))
        as Hin.
      { intros x c'. destruct (decide (x = r)) as [->|Hne].
        - rewrite Hwr, elem_of_app, list_elem_of_singleton. tauto.
        - rewrite (Hwx x Hne). tauto. }
      split.
      * done.
      * intros l x Hx. change (queued s') with (queued s) in Hx.
        change (closed s') with (closed s).
        destruct (H2 l x Hx) as [Hnd Hnc]. split.
        -- destruct (decide (x = r)) as [->|Hne]; [|by rewrite Hwx].
           rewrite Hwr. apply NoDup_app. split; [done|].
           split; [|apply NoDup_singleton].
           intros c' Hc' ->%list_elem_of_singleton. by apply (Hfresh r).
        -- intros c' [Hc'|[-> ->]]%Hin; [by apply Hnc | done].
      * intros l1 l2 x1 x2 c' Hx1 Hx2.
        change (queued s') with (queued s) in Hx1, Hx2.
        intros [Hc1|[-> ->]]%Hin [Hc2|[Hc2 ->]]%Hin.
        -- by apply (H3 l1 l2 x1 x2 c').
        -- subst c'. by destruct (Hfresh x1).
        -- by destruct (Hfresh x2).
        -- done.
    + intros [= <-]. split; sched_simpl.
      * apply NoDup_app. split; [done|]. split; [|apply NoDup_singleton].
        by intros c' Hc' ->%list_elem_of_singleton.
      * intros l x Hx. change (waiters _ x) with (waiters s x).
        destruct (H2 l x Hx) as [Hnd Hnc]. split; [done|].
        intros c' Hc'. rewrite elem_of_app, list_elem_of_singleton.
        intros [Hcl| ->]; [by apply (Hnc c') | by apply (Hfresh x)].
      * intros l1 l2 x1 x2 c'. apply (H3 l1 l2).
  - (* Die *)
    intros [= <-]. by apply (chan_inv_ext s).
Qed.

(* The dispatch pass leaves the heap, the index, the closed channels and
   the timers alone. *)
Lemma pickAndQueue_frame (sw : sweep) :
  ∀ sent s,
    let s' := (pickAndQueue sw sent s).2 in
    heap s' = heap s ∧ queued s' = queued s ∧ closed s' = closed s
    ∧ timers s' = timers s ∧ terminated s' = terminated s.
Proof.
  induction sw as [|[e room] sw IH]; intros sent s; simpl; [done|].
  destruct (ok (par s)); cbn [negb]; [|done].
  destruct (byEndpoint s !! e) as [q|] eqn:Hq; [|by apply IH].
  destruct (is_dead (state q)); [by apply IH|].
  destruct (queue q) as [|r rest] eqn:Hr; [by apply IH|].
  destruct room; [|done].
  match goal with
  | |- context [pickAndQueue sw true ?s1] => exact (IH true s1)
  end.
Qed.

Lemma fill_frame (sws : list sweep) :
  ∀ s s', fill sws s = Some s' →
    heap s' = heap s ∧ queued s' = queued s ∧ closed s' = closed s
    ∧ timers s' = timers s ∧ terminated s' = terminated s.
Proof.
  induction sws as [|sw sws IH]; intros s s'; simpl; [done|].
  pose proof (pickAndQueue_frame sw false s) as H1.
  destruct (pickAndQueue sw false s) as [[] s1]; simpl in H1.
  - intros Hf. destruct (IH s1 s' Hf) as (-> & -> & -> & -> & ->). done.
  - by intros [= <-].
Qed.

Lemma turn_chan_inv (a : action) (sws : list sweep) (s s' : sched) :
  ptr_inv s → chan_inv s → enabled a s → turn a sws s = Some s' → chan_inv s'.
Proof.
  intros Hinv Hc Hen. unfold turn, scheduler_step.
  destruct (handle (event_of a) (prepare a s)) as [s1|] eqn:Hh.
  - pose proof (handle_chan_inv a s s1 Hinv Hc Hen Hh) as H1.
    assert (∀ s', fill sws s1 = Some s' → chan_inv s') as Hfill.
    { intros s2 Hf. destruct (fill_frame sws s1 s2 Hf) as (Hh2 & Hq2 & Hc2 & _).
      apply (chan_inv_ext s1); [done | done | | done].
      intros l x _. unfold waiters. by rewrite Hh2. }
    destruct a; simpl; try (by apply Hfill).
    by intros [= <-].
  - by destruct a.
Qed.

Lemma reachable_chan_inv (s : sched) : reachable s → chan_inv s.
Proof.
  induction 1 as [|s a sws s' Hr IH Hen _ Ht].
  - apply chan_inv_init.
  - apply (turn_chan_inv a sws s s'); [by apply reachable_ptr_inv | done ..].
Qed.

(** ** Submission and flush *)

(* A turn is the handling of its event and then the dispatch pass, which
   leaves the heap, the index and the closed channels alone. *)
Lemma turn_handle (a : action) (sws : list sweep) (s s' : sched) :
  turn a sws s = Some s' →
  ∃ s1, handle (event_of a) (prepare a s) = Some s1
        ∧ heap s' = heap s1 ∧ queued s' = queued s1 ∧ closed s' = closed s1.
Proof.
  unfold turn, scheduler_step.
  destruct (handle (event_of a) (prepare a s)) as [s1|] eqn:Hh;
    [|by destruct a].
  intros Ht. exists s1. split; [done|].
  assert (fill sws s1 = Some s' ∨ s1 = s') as [Hf| <-]
    by (destruct a; simpl in Ht; [by left .. | right; by injection Ht]);
    [|done].
  by destruct (fill_frame sws s1 s' Hf) as (-> & -> & -> & _).
Qed.

Lemma Link_exists (fs : gmap string bytes) (oldname newname : string)
    (data : bytes) :
  fs !! oldname = Some data → is_Some (fs !! newname) →
  ∃ msg, os_Link fs oldname newname = inr msg ∧ substring_of "exists" msg.
Proof.
  intros Ho [d Hn]. unfold os_Link. rewrite Ho, Hn. eexists. split; [done|].
  exists ("link " +:+ oldname +:+ " " +:+ newname +:+ ": file "), "".
  by rewrite !append_assoc.
Qed.



(** C8: a flush for a location that is not in the index has its channel
    closed in that turn; otherwise the channel goes to the end of the
    waiters of the request of the index, which stays there.  A completion
    without error closes the waiters of its request, in their order, and
    no channel is ever closed twice; a completion with an error closes
    nothing and keeps the waiters. *)
Theorem flush_spec (a : action) (sws : list sweep) (s s' : sched) :
  reachable s → enabled a s → turn a sws s = Some s' →
  NoDup (closed s')
  ∧ match a with
    | Flush loc c =>
        match queued s !! loc with
        | None => closed s' = closed s ++ [c]
        | Some r =>
            closed s' = closed s
            ∧ waiters s' r = waiters s r ++ [c]
            ∧ queued s' !! loc = Some r
        end
    | Complete r None => closed s' = closed s ++ waiters s r
    | Complete r (Some _) =>
        closed s' = closed s
        ∧ waiters s' r = waiters s r
        ∧ ∃ loc, queued s' !! loc = Some r
    | _ => closed s' = closed s
    end.
Proof.
  intros Hreach Hen Ht.
  pose proof (reachable_ptr_inv s Hreach) as Hinv.
  pose proof (reachable_chan_inv s Hreach) as Hc.
  split; [apply (ci_closed s'), (turn_chan_inv a sws s s'); done|].
  pose proof (ptr_inv_prepare a s Hen Hinv) as Hinv0.
  destruct (turn_handle a sws s s' Ht) as (s1 & Hh & Hheap & Hidx & Hcl).
  rewrite Hcl, Hidx. unfold waiters. rewrite Hheap. clear Ht Hheap Hidx Hcl.
  destruct Hen as [_ Hen]. destruct a as [r loc|r e|e|loc c|]; simpl in *.
  - (* Submit *)
    rewrite (on_request_unfold _ r (mkRequest loc None [])) in Hh
      by apply lookup_insert_eq.
    destruct (queued _ !! _); by injection Hh as <-.
  - (* Complete *)
    set (s0 := set_err r e s) in *.
    destruct (pi_disp s0 Hinv0 r Hen) as (loc & Hl & [epq Hq]).
    assert (∃ req, heap s !! r = Some req ∧ Loc req = loc) as (req & Hreq & Hloc).
    { unfold loc_of, s0, set_err in Hl. sched_simpl.
      rewrite lookup_alter_eq in Hl. destruct (heap s !! r) as [req|]; [|done].
      exists req. split; [done|]. by injection Hl. }
    pose proof (set_err_heap r e s req Hreq) as Hreq0. fold s0 in Hreq0.
    rewrite <- Hloc in Hq. rewrite Hreq. sched_simpl. destruct e as [er|].
    + rewrite (on_done_failed s0 r _ er epq Hreq0 eq_refl Hq) in Hh.
      cbv zeta in Hh.
      assert (queued s0 !! loc = Some r) as Hir.
      { apply (pi_index s0 Hinv0). split; [by left | done]. }
      destruct (_ || _); injection Hh as <-; sched_simpl;
        (split; [done|]; split; [by rewrite Hreq0 | by exists loc]).
    + rewrite (on_done_succeeded s0 r _ epq Hreq0 eq_refl Hq) in Hh.
      by injection Hh as <-.
  - (* Retry *)
    unfold on_retry in Hh. sched_simpl.
    destruct (byEndpoint s !! e) as [epq|]; sched_simpl; [|done].
    destruct (is_dead _); by injection Hh as <-.
  - (* Flush *)
    unfold on_flush in Hh. destruct (queued s !! loc) as [r|] eqn:Hq.
    + destruct (heap s !! r) as [req|] eqn:Hreq; sched_simpl; [|done].
      injection Hh as <-. sched_simpl. by rewrite lookup_insert_eq.
    + by injection Hh as <-.
  - by injection Hh as <-.
Qed.

Example waiting1_state :
  waiters waiting1 2%nat = [7%nat] ∧ closed waiting1 = []
  ∧ dispatched waiting1 = [2%nat].
Proof. repeat split; by vm_compute. Qed.

Lemma waiting1_reachable : reachable waiting1.
Proof.
  apply (run_check_reachable _ init); [apply reach_init | by vm_compute].
Qed.

Lemma flush_spec_witness :
  NoDup (closed flushed1)
  ∧ closed flushed1 = closed waiting1 ++ waiters waiting1 2%nat.
Proof.
  assert (enabled (Complete 2%nat None) waiting1) as Hen.
  { apply (bool_decide_unpack _); by vm_compute. }
  assert (turn (Complete 2%nat None) [[(ep1, true)]] waiting1 = Some flushed1)
    as Ht.
  { by vm_compute. }
  exact (flush_spec (Complete 2%nat None) [[(ep1, true)]] waiting1 flushed1
           waiting1_reachable Hen Ht).
Defined.

(** * Further properties of the code *)

(** ** The ceiling under any sequence of calls *)

Lemma do_call_ceiling (p : parallelism) (c : call) :
  1 <= max p <= writers → 1 <= max (do_call p c) <= writers.
Proof.
  unfold writers. intros Hm. destruct c as [| |e]; simpl.
  - done.
  - unfold success. cbn [inFlight max successes].
    destruct (_ <? _); cbn [max]; [done|].
    destruct (Z.eqb_spec (max p) writers); cbn [max]; [done|].
    destruct (_ >=? _); cbn [max]; [|done].
    rewrite int_add_1 by (rewrite min_int_val, max_int_val; lia).
    unfold writers in *. lia.
  - unfold failure. cbn [inFlight max successes].
    destruct (negb _); cbn [snd max]; [done|].
    destruct (_ >=? _); cbn [snd max]; [done|].
    rewrite int_add_1 by (rewrite min_int_val, max_int_val; lia).
    unfold int_div. pose proof (Zquot_half_pos (max p) ltac:(lia)) as Hq.
    rewrite int_wrap_id by (unfold in_int; rewrite min_int_val, max_int_val; lia).
    lia.
Qed.

(** X1: [newParallelism] makes a controller with nothing in flight, no
    successes counted and the ceiling asked for, raised to 1 when it is
    below 1; and whatever calls of [add], [success] and [failure] follow,
    in any order and with any errors, the ceiling of a controller made
    with at most [writers] stays between 1 and [writers]. *)
Theorem ceiling_in_range (m : Z) (l : list call) :
  newParallelism m = {| inFlight := 0; max := Z.max 1 m; successes := 0 |}
  ∧ (m <= writers →
     1 <= max (do_calls l (newParallelism m)) <= writers).
Proof.
  split.
  - unfold newParallelism. destruct (Z.ltb_spec m 1); f_equal; lia.
  - intros Hm. unfold do_calls.
    assert (1 <= max (newParallelism m) <= writers) as H0.
    { unfold newParallelism, writers in *. simpl. destruct (Z.ltb_spec m 1); lia. }
    revert H0. generalize (newParallelism m).
    induction l as [|c l IH]; intros p Hp; simpl; [done|].
    apply IH. by apply do_call_ceiling.
Qed.

Lemma ceiling_in_range_witness :
  newParallelism (-3) = {| inFlight := 0; max := 1; successes := 0 |}
  ∧ 1 <= max (do_calls [CallAdd; CallFailure "timeout"; CallSuccess;
                        CallFailure "400 Bad Request"]
                (newParallelism (-3))) <= writers.
Proof.
  destruct (ceiling_in_range (-3) [CallAdd; CallFailure "timeout"; CallSuccess;
                                   CallFailure "400 Bad Request"]) as [Hn Hr].
  split; [exact Hn | apply Hr; by vm_compute].
Defined.

(** ** A window of timeouts *)

Lemma failures_collapse (e : error) (n : nat) :
  ∀ p, isTimeout e = true →
    inFlight p = Z.of_nat n → n ≠ 0%nat →
    1 <= max p <= inFlight p + 1 → inFlight p <= writers →
    failures n e p = {| inFlight := 0; max := 1; successes := 0 |}.
Proof.
  induction n as [|n IH]; intros p He Hi Hn Hm Hw; [done|]. simpl.
  assert (no_wrap {| inFlight := inFlight p; max := max p; successes := 0 |})
    as Hnw.
  { unfold no_wrap, writers in *. cbn [inFlight max successes].
    rewrite min_int_val, max_int_val. lia. }
  assert ((failure p e).2
          = (failure {| inFlight := inFlight p; max := max p; successes := 0 |} e).2)
    as -> by (unfold failure; cbn [inFlight max successes]; by rewrite He).
  rewrite (failure_unfold _ e Hnw). rewrite He. cbn [negb inFlight max successes].
  pose proof (Zquot_half_pos (max p) ltac:(lia)) as Hq.
  assert (Z.quot (max p + 1) 2 <= inFlight p - 1 + 1
          ∨ inFlight p - 1 = 0 ∧ Z.quot (max p + 1) 2 = 1) as Hhalf.
  { rewrite Z.quot_div_nonneg in * by lia.
    destruct (Z.eq_dec (inFlight p) 1) as [H1|H1].
    - right. split; [lia|]. assert (max p = 1 ∨ max p = 2) as [->| ->] by lia; done.
    - left. apply Z.div_le_upper_bound; lia. }
  destruct n as [|n].
  - (* the last request of the window *)
    simpl. destruct (Z.geb_spec (inFlight p - 1) (max p)); cbn [snd]; [lia|].
    f_equal; [lia|]. destruct Hhalf as [Hh|[_ Hh]]; lia.
  - destruct (Z.geb_spec (inFlight p - 1) (max p)); cbn [snd];
      (apply IH; cbn [inFlight max successes]; [done | lia | done | | lia]).
    + lia.
    + destruct Hhalf as [Hh|[Hh _]]; lia.
Qed.

(** X2: when every writeback of a full window times out, that is
    [inFlight] failures in a row with a timeout error starting with the
    ceiling at most one above the load, the controller ends with nothing
    in flight, the ceiling at 1 and no successes counted. *)
Theorem timeout_window_collapses (p : parallelism) (e : error) :
  isTimeout e = true →
  1 <= inFlight p <= writers → 1 <= max p <= inFlight p + 1 →
  failures (Z.to_nat (inFlight p)) e p
  = {| inFlight := 0; max := 1; successes := 0 |}.
Proof.
  intros He Hi Hm. apply failures_collapse; [done | lia | lia | done | lia].
Qed.

Lemma timeout_window_collapses_witness :
  failures 6 "Put: timeout" {| inFlight := 6; max := 6; successes := 3 |}
  = {| inFlight := 0; max := 1; successes := 0 |}.
Proof.
  apply (timeout_window_collapses {| inFlight := 6; max := 6; successes := 3 |}
           "Put: timeout"); by vm_compute.
Defined.

(* A state named as the result of a step is that result. *)
Lemma default_Some {A} (d : A) (o : option A) :
  is_Some o → o = Some (default d o).
Proof. by intros [x ->]. Qed.

(** ** The dispatch pass and the ceiling *)

Lemma pickAndQueue_ceiling (sw : sweep) :
  ∀ sent s,
    0 <= inFlight (par s) → max (par s) <= writers →
    let r := pickAndQueue sw sent s in
    max (par r.2) = max (par s)
    ∧ successes (par r.2) = successes (par s)
    ∧ inFlight (par s) <= inFlight (par r.2)
    ∧ inFlight (par r.2) <= Z.max (inFlight (par s)) (max (par s))
    ∧ (r.1 = true → sent = true ∨ inFlight (par s) < inFlight (par r.2)).
Proof.
  induction sw as [|[e room] sw IH]; intros sent s Hi Hm; simpl.
  { repeat split; try lia. intros ->. by left. }
  destruct (ok (par s)) eqn:Hok; cbn [negb fst snd];
    [|repeat split; try lia; done].
  destruct (byEndpoint s !! e) as [q|]; [|by apply IH].
  destruct (is_dead (state q)); [by apply IH|].
  destruct (queue q) as [|r rest]; [by apply IH|].
  destruct room; cbn [fst snd]; [|repeat split; try lia; done].
  destruct (add_bounds (par s) Hi Hm Hok) as [Ha Hle]. cbn [max add] in Hle.
  match goal with
  | |- context [pickAndQueue sw true ?s1] =>
      destruct (IH true s1) as (H1 & H2 & H3 & H4 & H5)
  end; sched_simpl; cbn [max successes add] in *; lia.
Qed.

(** X3: the dispatch pass, however many sweeps it makes, leaves the
    ceiling and the count of successes alone and raises [inFlight] at most
    to the ceiling: it ends with [inFlight] no higher than the larger of
    the ceiling and the load it started with. *)
Theorem fill_respects_ceiling (sws : list sweep) (s s' : sched) :
  0 <= inFlight (par s) → max (par s) <= writers →
  fill sws s = Some s' →
  max (par s') = max (par s)
  ∧ successes (par s') = successes (par s)
  ∧ inFlight (par s) <= inFlight (par s')
  ∧ inFlight (par s') <= Z.max (inFlight (par s)) (max (par s)).
Proof.
  revert s. induction sws as [|sw sws IH]; intros s Hi Hm; simpl; [done|].
  pose proof (pickAndQueue_ceiling sw false s Hi Hm) as (H1 & H2 & H3 & H4 & _).
  destruct (pickAndQueue sw false s) as [[] s1]; cbn [fst snd] in *.
  - intros Hf. destruct (IH s1) as (H1' & H2' & H3' & H4'); [lia | lia | done |].
    rewrite H1', H2', H1, H2. repeat split; lia.
  - intros [= <-]. done.
Qed.

Lemma fill_respects_ceiling_witness :
  inFlight (par submitted1) = 1 ∧ inFlight (par dispatched1) = 2
  ∧ max (par dispatched1) = max (par submitted1)
  ∧ inFlight (par dispatched1)
    <= Z.max (inFlight (par submitted1)) (max (par submitted1)).
Proof.
  split; [by vm_compute|]. split; [by vm_compute|].
  assert (0 <= inFlight (par submitted1)) as H1 by (by vm_compute).
  assert (max (par submitted1) <= writers) as H2 by (by vm_compute).
  assert (fill [[(ep1, true)]; [(ep1, true)]] submitted1 = Some dispatched1)
    as H3 by (apply default_Some, (bool_decide_unpack _); by vm_compute).
  pose proof (fill_respects_ceiling _ _ _ H1 H2 H3) as (Hm & _ & _ & Hi).
  split; [exact Hm | exact Hi].
Defined.

(** ** Every turn ends *)

(* A productive sweep raises [inFlight], and [inFlight] stops at the
   ceiling: the pass makes at most [max - inFlight] productive sweeps. *)
Lemma fill_fuel (sws : list sweep) :
  ∀ s, 0 <= inFlight (par s) → max (par s) <= writers →
       (Z.to_nat (max (par s) - inFlight (par s)) < List.length sws)%nat →
       is_Some (fill sws s).
Proof.
  induction sws as [|sw sws IH]; intros s Hi Hm Hlen; simpl in *; [lia|].
  pose proof (pickAndQueue_ceiling sw false s Hi Hm) as (H1 & H2 & H3 & H4 & H5).
  destruct (pickAndQueue sw false s) as [[] s1]; cbn [fst snd] in *; [|eauto].
  destruct H5 as [?|Hlt]; [done | done |].
  apply IH; lia.
Qed.

Lemma handle_progress (a : action) (s : sched) :
  ptr_inv s → enabled a s → is_Some (handle (event_of a) (prepare a s)).
Proof.
  intros Hinv Hen. pose proof (ptr_inv_prepare a s Hen Hinv) as Hinv0.
  destruct Hen as [_ Hen]. destruct a as [r loc|r e|e|loc c|]; simpl in *.
  - rewrite (on_request_unfold _ r (mkRequest loc None []))
      by apply lookup_insert_eq.
    destruct (queued _ !! _); eauto.
  - set (s0 := set_err r e s) in *.
    destruct (pi_disp s0 Hinv0 r Hen) as (loc & Hl & [epq Hq]).
    unfold loc_of in Hl. destruct (heap s0 !! r) as [req|] eqn:Hreq; [|done].
    injection Hl as <-. destruct (err req) as [er|] eqn:Her.
    + rewrite (on_done_failed s0 r req er epq Hreq Her Hq). cbv zeta.
      destruct (_ || _); eauto.
    + rewrite (on_done_succeeded s0 r req epq Hreq Her Hq). eauto.
  - destruct (pi_timers s Hinv e Hen) as [epq Hq].
    unfold on_retry. sched_simpl. rewrite Hq. sched_simpl.
    destruct (is_dead _); eauto.
  - unfold on_flush. destruct (queued s !! loc) as [r|] eqn:Hq; [|eauto].
    destruct (indexed_heap s loc r Hinv Hq) as (req & -> & _). sched_simpl. eauto.
  - eauto.
Qed.

(** X4: a turn of the scheduler always ends and never dereferences a nil
    queue: from a reachable state, for any event that can arrive, the
    event is handled and the dispatch pass stops within [writers + 1]
    sweeps. *)
Theorem turn_total (a : action) (sws : list sweep) (s : sched) :
  reachable s → enabled a s →
  (Z.to_nat writers < List.length sws)%nat →
  is_Some (turn a sws s).
Proof.
  intros Hreach Hen Hlen.
  pose proof (reachable_ptr_inv s Hreach) as Hinv.
  pose proof (reachable_par_inv s Hreach) as Hpar.
  destruct (handle_progress a s Hinv Hen) as [s1 Hh].
  pose proof (handle_par_inv a s s1 Hpar Hen Hh) as (Hl1 & Hm1 & Hc1 & _).
  unfold turn, scheduler_step. rewrite Hh.
  assert (is_Some (fill sws s1)) as Hfill.
  { apply fill_fuel; [lia | lia |]. unfold writers in *. lia. }
  destruct a; simpl; eauto.
Qed.

Lemma turn_total_witness :
  is_Some (turn (Complete 2%nat (Some "connection refused"))
             (replicate 21 [(ep1, true)]) live1).
Proof.
  apply turn_total; [apply live1_reachable | | by vm_compute].
  apply (bool_decide_unpack _). by vm_compute.
Defined.

(** ** The dispatch pass and the queues *)

Lemma drained_refl (q : endpointQueue) : drained q q [].
Proof. split; [done|]. destruct (state q); auto. Qed.

Lemma drained_step (q : endpointQueue) (r : ptr) (rest : list ptr) :
  is_dead (state q) = false → queue q = r :: rest →
  drained q (mkQueue rest (if is_unknown (state q) then dead else state q)) [r].
Proof.
  intros Hd Hq. split; [done|]. destruct (state q); simpl; auto. done.
Qed.

Lemma drained_trans (q q1 q2 : endpointQueue) (pre1 pre2 : list ptr) :
  drained q q1 pre1 → drained q1 q2 pre2 → drained q q2 (pre1 ++ pre2).
Proof.
  intros [Hq1 Hs1] [Hq2 Hs2]. split.
  { by rewrite Hq1, Hq2, app_assoc. }
  destruct (state q).
  - destruct Hs1 as [[-> Hs]|[Hl Hs]]; rewrite Hs in Hs2.
    + done.
    + destruct Hs2 as [-> ->]. right. by rewrite app_nil_r.
  - rewrite Hs1 in Hs2. done.
  - destruct Hs1 as [-> Hs]. rewrite Hs in Hs2. by destruct Hs2 as [-> ->].
Qed.

Lemma pickAndQueue_drain (sw : sweep) (e : Endpoint) :
  ∀ sent s q, byEndpoint s !! e = Some q →
    ∃ q' pre out,
      byEndpoint (pickAndQueue sw sent s).2 !! e = Some q'
      ∧ drained q q' pre
      ∧ dispatched (pickAndQueue sw sent s).2 = dispatched s ++ out
      ∧ pre `sublist_of` out.
Proof.
  induction sw as [|[e0 room] sw IH]; intros sent s q Hq; simpl.
  { exists q, [], []. rewrite app_nil_r. by auto using drained_refl. }
  assert (∃ q' pre out, byEndpoint s !! e = Some q' ∧ drained q q' pre
            ∧ dispatched s = dispatched s ++ out ∧ pre `sublist_of` out) as Hstop.
  { exists q, [], []. rewrite app_nil_r. by auto using drained_refl. }
  destruct (ok (par s)); cbn [negb snd]; [|done].
  destruct (byEndpoint s !! e0) as [q0|] eqn:Hq0; [|by apply IH].
  destruct (is_dead (state q0)) eqn:Hd; [by apply IH|].
  destruct (queue q0) as [|r rest] eqn:Hr; [by apply IH|].
  destruct room; cbn [snd]; [|done].
  match goal with
  | |- context [pickAndQueue sw true ?s1] => set (s1' := s1)
  end.
  destruct (decide (e0 = e)) as [->|Hne].
  - assert (q0 = q) as -> by congruence.
    destruct (IH true s1' _ (lookup_insert_eq _ e _))
      as (q' & pre & out & Hq' & Hdr & Hout & Hsub).
    exists q', (r :: pre), (r :: out). split; [done|]. split.
    { by apply (drained_trans _ _ _ [r] pre (drained_step q r rest Hd Hr)). }
    split; [|by apply sublist_skip].
    rewrite Hout. unfold s1'. sched_simpl. by rewrite <- app_assoc.
  - assert (byEndpoint s1' !! e = Some q) as Hq1
      by (unfold s1'; sched_simpl; by rewrite lookup_insert_ne).
    destruct (IH true s1' q Hq1) as (q' & pre & out & Hq' & Hdr & Hout & Hsub).
    exists q', pre, (r :: out). split; [done|]. split; [done|].
    split; [|by apply sublist_cons].
    rewrite Hout. unfold s1'. sched_simpl. by rewrite <- app_assoc.
Qed.

Lemma fill_drain (sws : list sweep) (e : Endpoint) :
  ∀ s s' q, fill sws s = Some s' → byEndpoint s !! e = Some q →
    ∃ q' pre out,
      byEndpoint s' !! e = Some q' ∧ drained q q' pre
      ∧ dispatched s' = dispatched s ++ out ∧ pre `sublist_of` out.
Proof.
  induction sws as [|sw sws IH]; intros s s' q; simpl; [done|].
  intros Hf Hq.
  destruct (pickAndQueue_drain sw e false s q Hq)
    as (q1 & pre1 & out1 & Hq1 & Hdr1 & Hout1 & Hsub1).
  destruct (pickAndQueue sw false s) as [[] s1]; cbn [snd] in *.
  - destruct (IH s1 s' q1 Hf Hq1) as (q' & pre2 & out2 & Hq' & Hdr2 & Hout2 & Hsub2).
    exists q', (pre1 ++ pre2), (out1 ++ out2). split; [done|].
    split; [by apply (drained_trans q q1 q')|].
    split; [by rewrite Hout2, Hout1, app_assoc | by apply sublist_app].
  - injection Hf as <-. by exists q1, pre1, out1.
Qed.

(** X5: the dispatch pass takes requests from the head of a queue only,
    and sends them in that order: after it the queue is what is left
    behind the requests it took, and these are on the ready channel, after
    what was there, in the order they had in the queue.  A LIVE queue stays
    LIVE. *)
Theorem fill_fifo (sws : list sweep) (s s' : sched) (e : Endpoint)
    (q : endpointQueue) :
  fill sws s = Some s' → byEndpoint s !! e = Some q →
  ∃ q' pre out,
    byEndpoint s' !! e = Some q'
    ∧ queue q = pre ++ queue q'
    ∧ dispatched s' = dispatched s ++ out
    ∧ pre `sublist_of` out
    ∧ (state q = live → state q' = live).
Proof.
  intros Hf Hq.
  destruct (fill_drain sws e s s' q Hf Hq) as (q' & pre & out & H1 & [H2 H3] & H4 & H5).
  exists q', pre, out. repeat split; try done.
  intros Hl. by rewrite Hl in H3.
Qed.

(** X6: the dispatch pass sends nothing to a DEAD endpoint: its queue is
    after the pass as it was before. *)
Theorem fill_skips_dead (sws : list sweep) (s s' : sched) (e : Endpoint)
    (q : endpointQueue) :
  fill sws s = Some s' → byEndpoint s !! e = Some q → state q = dead →
  byEndpoint s' !! e = Some q.
Proof.
  intros Hf Hq Hd.
  destruct (fill_drain sws e s s' q Hf Hq) as (q' & pre & out & H1 & [H2 H3] & _).
  rewrite Hd in H3. destruct H3 as [-> H3]. rewrite H1. f_equal.
  destruct q, q'; simpl in *; congruence.
Qed.

(** X7: an UNKNOWN endpoint gets one probe: the dispatch pass, however
    many sweeps it makes, either leaves its queue as it is or sends the
    request at its head, and that one only, and marks the queue DEAD. *)
Theorem fill_probes_once (sws : list sweep) (s s' : sched) (e : Endpoint)
    (q : endpointQueue) :
  fill sws s = Some s' → byEndpoint s !! e = Some q → state q = unknown →
  byEndpoint s' !! e = Some q
  ∨ ∃ r rest,
      queue q = r :: rest
      ∧ byEndpoint s' !! e = Some (mkQueue rest dead)
      ∧ r ∈ dispatched s'.
Proof.
  intros Hf Hq Hu.
  destruct (fill_drain sws e s s' q Hf Hq)
    as (q' & pre & out & H1 & [H2 H3] & H4 & H5).
  rewrite Hu in H3. destruct H3 as [[-> H3]|[Hl H3]].
  - left. rewrite H1. f_equal. destruct q, q'; simpl in *; congruence.
  - right. destruct pre as [|r [|? ?]]; try done.
    exists r, (queue q'). split; [done|]. split.
    + rewrite H1. f_equal. destruct q'; simpl in *; congruence.
    + rewrite H4. apply elem_of_app. right.
      apply (elem_of_sublist [r]); [by left | done].
Qed.

Lemma fill_fifo_witness :
  ∃ q' pre out,
    byEndpoint dispatched1 !! ep1 = Some q'
    ∧ queue (mkQueue [3%nat] live) = pre ++ queue q'
    ∧ dispatched dispatched1 = dispatched submitted1 ++ out
    ∧ pre `sublist_of` out
    ∧ (state (mkQueue [3%nat] live) = live → state q' = live).
Proof.
  apply (fill_fifo [[(ep1, true)]; [(ep1, true)]] submitted1 dispatched1 ep1).
  - apply default_Some, (bool_decide_unpack _). by vm_compute.
  - by vm_compute.
Defined.

Lemma fill_skips_dead_witness :
  byEndpoint (default init (fill [[(ep1, true)]; [(ep1, true)]] stranded1))
    !! ep1
  = Some (mkQueue [1%nat] dead).
Proof.
  apply (fill_skips_dead [[(ep1, true)]; [(ep1, true)]] stranded1).
  - apply default_Some, (bool_decide_unpack _). by vm_compute.
  - by vm_compute.
  - done.
Defined.

Lemma fill_probes_once_witness :
  byEndpoint probed1 !! ep1 = Some (mkQueue [1%nat] unknown)
  ∨ ∃ r rest,
      queue (mkQueue [1%nat] unknown) = r :: rest
      ∧ byEndpoint probed1 !! ep1 = Some (mkQueue rest dead)
      ∧ r ∈ dispatched probed1.
Proof.
  apply (fill_probes_once [[(ep1, true)]; [(ep1, true)]] probing1 probed1 ep1).
  - apply default_Some, (bool_decide_unpack _). by vm_compute.
  - by vm_compute.
  - done.
Defined.

(** ** An endpoint whose probe failed *)

(* The queue of [e] is DEAD and has only grown at its tail. *)
Lemma stranded_ext (s s' : sched) (e : Endpoint) (q : endpointQueue) :
  byEndpoint s !! e = Some q →
  (∃ more, byEndpoint s' !! e = Some (mkQueue (queue q ++ more) dead)) →
  (∀ e', e' ∈ timers s' → e' ∈ timers s ∨ e' ≠ e) →
  (∀ r loc, r ∈ dispatched s' → loc_of s' r = Some loc →
     (r ∈ dispatched s ∧ loc_of s r = Some loc) ∨ LocEndpoint loc ≠ e) →
  stranded s e → stranded s' e.
Proof.
  intros Hq [more Hq'] Ht Hd (_ & Hnt & Hnd). split; [|split].
  - eexists. split; [exact Hq' | done].
  - intros He. destruct (Ht e He); done.
  - intros r loc Hr Hl. destruct (Hd r loc Hr Hl) as [[Hr0 Hl0]|Hne]; [|done].
    by apply (Hnd r loc).
Qed.

Lemma queue_dead_eq (q : endpointQueue) :
  state q = dead → q = mkQueue (queue q ++ []) dead.
Proof. intros H. destruct q; simpl in *. by rewrite app_nil_r, H. Qed.

Lemma handle_stranded (a : action) (s s1 : sched) (e : Endpoint)
    (q : endpointQueue) :
  ptr_inv s → enabled a s → stranded s e → byEndpoint s !! e = Some q →
  handle (event_of a) (prepare a s) = Some s1 →
  stranded s1 e
  ∧ ∃ more, byEndpoint s1 !! e = Some (mkQueue (queue q ++ more) dead).
Proof.
  intros Hinv Hen Hst Hq Hh.
  assert (state q = dead) as Hdead.
  { destruct Hst as ((q0 & Hq0 & Hd) & _). congruence. }
  pose proof (queue_dead_eq q Hdead) as Hqeq.
  pose proof (ptr_inv_prepare a s Hen Hinv) as Hinv0.
  assert ((∃ more, byEndpoint s1 !! e = Some (mkQueue (queue q ++ more) dead))
          ∧ (∀ e', e' ∈ timers s1 → e' ∈ timers s ∨ e' ≠ e)
          ∧ (∀ r loc, r ∈ dispatched s1 → loc_of s1 r = Some loc →
               (r ∈ dispatched s ∧ loc_of s r = Some loc) ∨ LocEndpoint loc ≠ e))
    as (H1 & H2 & H3);
    [|split; [by apply (stranded_ext s s1 e q) | done]].
  destruct Hen as [_ Hen]. destruct a as [r loc|r er|e0|loc c|]; simpl in *.
  - (* Submit *)
    assert (∀ x l, x ∈ dispatched s → loc_of (new_request r loc s) x = Some l →
                   loc_of s x = Some l) as Hloc.
    { intros x l Hx. unfold loc_of, new_request. sched_simpl.
      destruct (decide (x = r)) as [->|Hne]; [|by rewrite lookup_insert_ne].
      destruct (pi_disp s Hinv r Hx) as (l0 & Hl0 & _). unfold loc_of in Hl0.
      by rewrite Hen in Hl0. }
    rewrite (on_request_unfold _ r (mkRequest loc None [])) in Hh
      by apply lookup_insert_eq.
    cbn [Loc] in Hh. destruct (queued _ !! loc); injection Hh as <-.
    + split; [exists []; by rewrite <- Hqeq|]. split; [by left|].
      intros x l Hx Hl. left. split; [done | by apply Hloc].
    + split; [|split; [by left|]].
      * sched_simpl. unfold new_request. sched_simpl.
        destruct (decide (LocEndpoint loc = e)) as [->|Hne].
        -- rewrite lookup_insert_eq, Hq. simpl. rewrite Hdead. by exists [r].
        -- rewrite lookup_insert_ne by done. exists []. by rewrite <- Hqeq.
      * intros x l Hx Hl. left. split; [done | by apply Hloc].
  - (* Complete *)
    set (s0 := set_err r er s) in *.
    assert (∀ x, loc_of s0 x = loc_of s x) as Hloc.
    { intros x. unfold loc_of, s0, set_err. sched_simpl.
      destruct (decide (x = r)) as [->|Hne].
      - rewrite lookup_alter_eq. by destruct (heap s !! r).
      - by rewrite lookup_alter_ne. }
    destruct (pi_disp s0 Hinv0 r Hen) as (loc & Hl & [epq Hq0]).
    assert (LocEndpoint loc ≠ e) as Hne.
    { destruct Hst as (_ & _ & Hnd). apply (Hnd r loc Hen). by rewrite <- Hloc. }
    unfold loc_of in Hl. destruct (heap s0 !! r) as [req|] eqn:Hreq; [|done].
    injection Hl as <-. destruct (err req) as [msg|] eqn:Her.
    + rewrite (on_done_failed s0 r req msg epq Hreq Her Hq0) in Hh. cbv zeta in Hh.
      destruct (_ || _); injection Hh as <-; sched_simpl;
        (split; [exists []; by rewrite lookup_insert_ne, <- Hqeq|]);
        (split;
         [|intros x l Hx%elem_of_remove1 Hl; left; split; [done|];
           by rewrite <- Hloc]).
      * by left.
      * intros e'. rewrite elem_of_app, list_elem_of_singleton.
        intros [?| ->]; [by left | by right].
    + rewrite (on_done_succeeded s0 r req epq Hreq Her Hq0) in Hh.
      injection Hh as <-. sched_simpl.
      split; [exists []; by rewrite lookup_insert_ne, <- Hqeq|].
      split; [by left|].
      intros x l Hx%elem_of_remove1 Hl. left. split; [done|]. by rewrite <- Hloc.
  - (* Retry *)
    assert (e0 ≠ e) as Hne.
    { intros ->. by destruct Hst as (_ & Hnt & _). }
    unfold on_retry in Hh. sched_simpl.
    destruct (byEndpoint s !! e0) as [epq|]; sched_simpl; [|done].
    destruct (is_dead _); injection Hh as <-; sched_simpl;
      (split; [exists []; rewrite ?lookup_insert_ne by done; by rewrite <- Hqeq|]);
      (split; [intros e' He'%elem_of_remove1; by left|]);
      intros x l Hx Hl; by left.
  - (* Flush *)
    unfold on_flush in Hh. destruct (queued s !! loc) as [r|] eqn:Hi.
    + destruct (heap s !! r) as [req|] eqn:Hreq; sched_simpl; [|done].
      injection Hh as <-. sched_simpl.
      split; [exists []; by rewrite <- Hqeq|]. split; [by left|].
      intros x l Hx Hl. left. split; [done|]. revert Hl. unfold loc_of.
      sched_simpl. destruct (decide (x = r)) as [->|Hne].
      * by rewrite lookup_insert_eq, Hreq.
      * by rewrite lookup_insert_ne.
    + injection Hh as <-. sched_simpl.
      split; [exists []; by rewrite <- Hqeq|]. split; [by left|].
      intros x l Hx Hl. by left.
  - injection Hh as <-. sched_simpl.
    split; [exists []; by rewrite <- Hqeq|]. split; [by left|].
    intros x l Hx Hl. by left.
Qed.

Lemma pickAndQueue_stranded (sw : sweep) (e : Endpoint) :
  ∀ sent s, ptr_inv s → stranded s e →
    stranded (pickAndQueue sw sent s).2 e ∧ ptr_inv (pickAndQueue sw sent s).2.
Proof.
  induction sw as [|[e0 room] sw IH]; intros sent s Hinv Hst; simpl; [done|].
  destruct (ok (par s)); cbn [negb snd]; [|done].
  destruct (byEndpoint s !! e0) as [q0|] eqn:Hq0; [|by apply IH].
  destruct (is_dead (state q0)) eqn:Hd; [by apply IH|].
  destruct (queue q0) as [|r rest] eqn:Hr; [by apply IH|].
  destruct room; cbn [snd]; [|done].
  destruct Hst as ((q & Hq & Hdead) & Hnt & Hnd).
  assert (e0 ≠ e) as Hne.
  { intros ->. assert (q0 = q) as -> by congruence. by rewrite Hdead in Hd. }
  assert (in_queue s e0 r) as Hin
    by (exists q0; rewrite Hr; split; [done | by left]).
  destruct (pi_queue s Hinv e0 r Hin) as [_ Hre].
  apply IH.
  - by eapply (dispatch_ptr_inv s _ e0 q0 r rest).
  - split; [|split]; sched_simpl.
    + exists q. by rewrite lookup_insert_ne.
    + done.
    + intros x l. rewrite elem_of_app, list_elem_of_singleton.
      change (loc_of _ x) with (loc_of s x). intros [Hx| ->] Hl.
      * by apply (Hnd x l).
      * rewrite Hl in Hre. simpl in Hre. congruence.
Qed.

Lemma fill_stranded (sws : list sweep) (e : Endpoint) :
  ∀ s s', ptr_inv s → stranded s e → fill sws s = Some s' → stranded s' e.
Proof.
  induction sws as [|sw sws IH]; intros s s' Hinv Hst; simpl; [done|].
  destruct (pickAndQueue_stranded sw e false s Hinv Hst) as [H1 H2].
  destruct (pickAndQueue sw false s) as [[] s1]; cbn [snd] in *.
  - by apply IH.
  - by intros [= <-].
Qed.

(** X8: an endpoint that is DEAD with no retry armed and none of its
    requests with the writers stays so whatever happens next: after any
    turn of the scheduler it is still DEAD without a retry, and its queue
    holds the requests it held, with those submitted since behind them.
    None of them is dispatched again.  This is where the failure of a
    probe leaves an endpoint: the dispatch of the probe marks the queue
    DEAD, and a completion with an error arms a retry only for a queue
    that is not DEAD. *)
Theorem stranded_forever (a : action) (sws : list sweep) (s s' : sched)
    (e : Endpoint) (q : endpointQueue) :
  reachable s → stranded s e → byEndpoint s !! e = Some q →
  enabled a s → turn a sws s = Some s' →
  stranded s' e
  ∧ ∃ more, byEndpoint s' !! e = Some (mkQueue (queue q ++ more) dead).
Proof.
  intros Hreach Hst Hq Hen Ht.
  pose proof (reachable_ptr_inv s Hreach) as Hinv.
  unfold turn, scheduler_step in Ht.
  destruct (handle (event_of a) (prepare a s)) as [s1|] eqn:Hh;
    [|by destruct a].
  destruct (handle_stranded a s s1 e q Hinv Hen Hst Hq Hh) as [Hst1 [more Hq1]].
  pose proof (handle_ptr_inv a s s1 Hinv Hen Hh) as Hinv1.
  assert (fill sws s1 = Some s' ∨ s1 = s') as [Hf| <-]
    by (destruct a; simpl in Ht; [by left .. | right; by injection Ht]).
  - split; [by apply (fill_stranded sws e s1 s')|]. exists more.
    destruct (fill_drain sws e s1 s' _ Hf Hq1)
      as (q' & pre & out & Hq' & [Hd1 Hd2] & _).
    simpl in Hd1, Hd2. destruct Hd2 as [-> Hd2]. rewrite Hq'. f_equal.
    destruct q'; simpl in *. congruence.
  - split; [done | by exists more].
Qed.

Lemma stranded1_reachable : reachable stranded1.
Proof.
  apply (run_check_reachable run3 init); [apply reach_init | by vm_compute].
Qed.

Lemma stranded1_stranded : stranded stranded1 ep1.
Proof.
  split; [|split].
  - exists (mkQueue [1%nat] dead). by vm_compute.
  - apply (bool_decide_unpack _). by vm_compute.
  - intros r loc Hr. assert (dispatched stranded1 = []) as Hd by (by vm_compute).
    rewrite Hd in Hr. by apply elem_of_nil in Hr.
Qed.

Lemma stranded_forever_witness :
  stranded stranded1 ep1
  ∧ timers stranded1 = []
  ∧ ∃ more,
      byEndpoint
        (default init
           (turn (Submit 2%nat loc2) [[(ep1, true)]; [(ep1, true)]] stranded1))
        !! ep1
      = Some (mkQueue ([1%nat] ++ more) dead).
Proof.
  split; [apply stranded1_stranded|]. split; [by vm_compute|].
  apply (stranded_forever (Submit 2%nat loc2) [[(ep1, true)]; [(ep1, true)]]
           stranded1 _ ep1 (mkQueue [1%nat] dead)).
  - apply stranded1_reachable.
  - apply stranded1_stranded.
  - by vm_compute.
  - apply (bool_decide_unpack _). by vm_compute.
  - apply default_Some, (bool_decide_unpack _). by vm_compute.
Defined.

(** ** The cache directory *)

(** X9: [writeback] touches no path but the link of its request; when it
    returns an error the directory is as it was, so the link is kept for
    the next attempt; it removes the link only after a put that returned
    the reference of the request; and when it returns nil the link is
    gone unless the read of the link or its removal failed. *)
Theorem writeback_effect
    (cachePath : Reference → Endpoint → string)
    (StoreServer : Endpoint → (bytes → Reference + error) + error)
    (quote : string → string) (flt : os_faults)
    (fs : gmap string bytes) (r : request) :
  (∀ p, p ≠ cachePath (LocReference (Loc r)) (LocEndpoint (Loc r))
             +:+ writebackSuffix →
        (writeback cachePath StoreServer quote flt fs r).2 !! p = fs !! p)
  ∧ (is_Some (writeback cachePath StoreServer quote flt fs r).1 →
     (writeback cachePath StoreServer quote flt fs r).2 = fs)
  ∧ ((writeback cachePath StoreServer quote flt fs r).2 ≠ fs →
     (writeback cachePath StoreServer quote flt fs r).1 = None
     ∧ (writeback cachePath StoreServer quote flt fs r).2
       = delete (cachePath (LocReference (Loc r)) (LocEndpoint (Loc r))
                 +:+ writebackSuffix) fs
     ∧ ∃ data store,
         fs !! (cachePath (LocReference (Loc r)) (LocEndpoint (Loc r))
                +:+ writebackSuffix) = Some data
         ∧ StoreServer (LocEndpoint (Loc r)) = inl store
         ∧ store data = inl (LocReference (Loc r)))
  ∧ ((writeback cachePath StoreServer quote flt fs r).1 = None →
     (writeback cachePath StoreServer quote flt fs r).2
       !! (cachePath (LocReference (Loc r)) (LocEndpoint (Loc r))
           +:+ writebackSuffix) = None
     ∨ (∃ msg,
          readFromCacheFile flt fs
            (cachePath (LocReference (Loc r)) (LocEndpoint (Loc r))
             +:+ writebackSuffix) = inr msg)
     ∨ is_Some
         (os_Remove flt fs
            (cachePath (LocReference (Loc r)) (LocEndpoint (Loc r))
             +:+ writebackSuffix)).2).
Proof.
  unfold writeback, readFromCacheFile, os_Remove.
  set (file := cachePath _ _ +:+ writebackSuffix).
  destruct (fs !! file) as [data|] eqn:Hf; cbn [fst snd];
    [|split; [done|]; split; [done|]; split; [done|]; intros _; right; left;
      eauto].
  destruct (read_fault flt file) as [msg|]; cbn [fst snd];
    [split; [done|]; split; [done|]; split; [done|]; intros _; right; left;
     eauto|].
  destruct (StoreServer _) as [store|msg] eqn:Hb; cbn [fst snd];
    [|split; [done|]; split; [done|]; split; done].
  destruct (store data) as [ref|msg] eqn:Hp; cbn [fst snd];
    [|split; [done|]; split; [done|]; split; done].
  destruct (String.eqb_spec ref (LocReference (Loc r))) as [->|Hne];
    cbn [negb fst snd]; [|split; [done|]; split; [done|]; split; done].
  destruct (remove_fault flt file) as [msg|]; cbn [fst snd].
  - split; [done|]. split; [done|]. split; [done|]. intros _. right. right. eauto.
  - split; [|split; [|split]].
    + intros p Hp'. by rewrite lookup_delete_ne.
    + by intros [x Hx].
    + intros _. split; [done|]. split; [done|]. by exists data, store.
    + intros _. left. apply lookup_delete_eq.
Qed.

(** X10: [requestWriteback] sends a request only after it has made the
    link: when it sends one it returns nil, the request is for the
    reference and endpoint asked, without error or waiters, the link did
    not exist before and now holds the bytes of the cache file, and
    nothing else has changed; when it sends none the directory is as it
    was. *)
Theorem requestWriteback_effect
    (cachePath : Reference → Endpoint → string)
    (fs : gmap string bytes) (ref : Reference) (e : Endpoint) :
  match (requestWriteback cachePath fs ref e).1.2 with
  | Some req =>
      (requestWriteback cachePath fs ref e).1.1 = None
      ∧ req = mkRequest (mkLocation e ref) None []
      ∧ fs !! (cachePath ref e +:+ writebackSuffix) = None
      ∧ ∃ data,
          fs !! cachePath ref e = Some data
          ∧ (requestWriteback cachePath fs ref e).2
            = <[cachePath ref e +:+ writebackSuffix := data]> fs
  | None => (requestWriteback cachePath fs ref e).2 = fs
  end.
Proof.
  unfold requestWriteback, os_Link.
  destruct (fs !! cachePath ref e) as [data|] eqn:Hcf.
  - destruct (fs !! (cachePath ref e +:+ writebackSuffix)) eqn:Hwbf.
    + by destruct (Contains _ _).
    + cbn [fst snd]. split; [done|]. split; [done|]. split; [done|]. by exists data.
  - by destruct (Contains _ _).
Qed.

(** X11: a writeback asked for and done leaves the cache directory as it
    was, when the link can be removed: when the block is in the cache and
    has no link, [requestWriteback] makes the link and sends the request,
    and [writeback] of that request, with a link that can be read and a
    store that takes the bytes and answers with the reference, returns
    nil; it removes the link again, or, when the removal fails, leaves the
    directory with the link. *)
Theorem requestWriteback_then_writeback
    (cachePath : Reference → Endpoint → string)
    (StoreServer : Endpoint → (bytes → Reference + error) + error)
    (quote : string → string) (flt : os_faults)
    (fs : gmap string bytes) (ref : Reference) (e : Endpoint)
    (data : bytes) (store : bytes → Reference + error) :
  fs !! cachePath ref e = Some data →
  fs !! (cachePath ref e +:+ writebackSuffix) = None →
  read_fault flt (cachePath ref e +:+ writebackSuffix) = None →
  StoreServer e = inl store → store data = inl ref →
  ∃ req fs1,
    requestWriteback cachePath fs ref e = (None, Some req, fs1)
    ∧ fs1 !! (cachePath ref e +:+ writebackSuffix) = Some data
    ∧ writeback cachePath StoreServer quote flt fs1 req
      = (None,
         match remove_fault flt (cachePath ref e +:+ writebackSuffix) with
         | Some _ => fs1
         | None => fs
         end).
Proof.
  intros Hcf Hwbf Hread Hbind Hput. unfold requestWriteback, os_Link.
  rewrite Hcf, Hwbf. eexists _, _. split; [done|].
  split; [apply lookup_insert_eq|].
  unfold writeback, readFromCacheFile, os_Remove. cbn [Loc LocReference LocEndpoint].
  rewrite lookup_insert_eq, Hread, Hbind, Hput, String.eqb_refl. cbn [negb fst].
  destruct (remove_fault flt _); cbn [fst]; [done|].
  by rewrite delete_insert_id.
Qed.

Lemma requestWriteback_then_writeback_witness :
  ∃ req fs1,
    requestWriteback cachePath1 cached1 "r2" ep1 = (None, Some req, fs1)
    ∧ fs1 !! (cachePath1 "r2" ep1 +:+ writebackSuffix) = Some [Byte.x2a]
    ∧ writeback cachePath1 store_r2 id no_faults fs1 req = (None, cached1).
Proof.
  apply (requestWriteback_then_writeback cachePath1 store_r2 id no_faults
           cached1 "r2" ep1 [Byte.x2a] (λ _, inl "r2")); by vm_compute.
Defined.

(** ** The index *)

(** X12: in every state of the scheduler's loop the index holds exactly
    the pending requests: a location of the index has one request object,
    and that object is in one place, once, the queue of its endpoint or
    the writers; a request that is in a queue or with the writers is the
    one the index has for its location. *)
Theorem index_uniqueness (s : sched) :
  reachable s →
  (∀ loc r, queued s !! loc = Some r ↔ pending_for s loc r)
  ∧ (∀ loc r1 r2, pending_for s loc r1 → pending_for s loc r2 → r1 = r2)
  ∧ NoDup (dispatched s)
  ∧ (∀ e q, byEndpoint s !! e = Some q → NoDup (queue q))
  ∧ (∀ e r, in_queue s e r →
       (r ∉ dispatched s) ∧ (LocEndpoint <$> loc_of s r) = Some e).
Proof.
  intros Hreach. destruct (reachable_ptr_inv s Hreach) as [H1 H2 H3 H4 H5 H6].
  split; [done|]. split; [|done].
  intros loc r1 r2 Hr1%H1 Hr2%H1. congruence.
Qed.

Lemma index_uniqueness_witness :
  NoDup (dispatched halved1)
  ∧ ∀ loc r1 r2,
      pending_for halved1 loc r1 → pending_for halved1 loc r2 → r1 = r2.
Proof.
  destruct (index_uniqueness halved1 halved1_reachable) as (_ & Hu & Hd & _).
  split; [exact Hd | exact Hu].
Defined.

(** ** A flush behind a success *)

(** X13: once a request has been written back, a flush for its location
    does not wait: the turn that handles the completion without error
    takes the location out of the index, and the turn that handles a
    flush for it next closes the channel of the flush. *)
Theorem flush_after_success (r : ptr) (loc : Location) (c : chan)
    (sws sws' : list sweep) (s s' s'' : sched) :
  reachable s → enabled (Complete r None) s → loc_of s r = Some loc →
  turn (Complete r None) sws s = Some s' →
  turn (Flush loc c) sws' s' = Some s'' →
  queued s' !! loc = None ∧ closed s'' = closed s' ++ [c].
Proof.
  intros Hreach Hen Hloc Ht Ht'.
  pose proof (reachable_ptr_inv s Hreach) as Hinv.
  pose proof (ptr_inv_prepare _ s Hen Hinv) as Hinv0.
  destruct (turn_handle _ sws s s' Ht) as (s1 & Hh & _ & Hidx & _).
  assert (queued s' !! loc = None) as Hnone.
  { rewrite Hidx. simpl in Hh, Hinv0. set (s0 := set_err r None s) in *.
    destruct Hen as [_ Hen].
    destruct (pi_disp s0 Hinv0 r Hen) as (loc0 & Hl & [epq Hq]).
    unfold loc_of in Hloc. destruct (heap s !! r) as [req|] eqn:Hreq; [|done].
    injection Hloc as Hloc.
    pose proof (set_err_heap r None s req Hreq) as Hreq0. fold s0 in Hreq0.
    unfold loc_of in Hl. rewrite Hreq0 in Hl. injection Hl as <-.
    rewrite (on_done_succeeded s0 r _ epq Hreq0 eq_refl Hq) in Hh.
    injection Hh as <-. sched_simpl. rewrite Hloc. apply lookup_delete_eq. }
  split; [done|].
  destruct (turn_handle _ sws' s' s'' Ht') as (s2 & Hh' & _ & _ & Hcl).
  simpl in Hh'. unfold on_flush in Hh'. rewrite Hnone in Hh'.
  injection Hh' as <-. by rewrite Hcl.
Qed.

Lemma flush_after_success_witness :
  queued flushed1 !! loc2 = None
  ∧ closed
      (default init (turn (Flush loc2 8%nat) [[(ep1, true)]] flushed1))
    = closed flushed1 ++ [8%nat].
Proof.
  apply (flush_after_success 2%nat loc2 8%nat [[(ep1, true)]] [[(ep1, true)]]
           waiting1).
  - apply waiting1_reachable.
  - apply (bool_decide_unpack _). by vm_compute.
  - by vm_compute.
  - apply default_Some, (bool_decide_unpack _). by vm_compute.
  - apply default_Some, (bool_decide_unpack _). by vm_compute.
Defined.

(** ** Links written in the schema *)

Lemma TrimPrefix_app (prefix t : string) : TrimPrefix (prefix +:+ t) prefix = t.
Proof.
  destruct (TrimPrefix_spec (prefix +:+ t) prefix) as [(t' & Ht & ->)|[Hn _]].
  - symmetry. by apply (inj (String.app prefix)) in Ht.
  - destruct Hn. by exists t.
Qed.

(** X14: a link named by the schema is found again at startup: for a
    non-nil receiver with cache directory [dir], the path
    [dir/a/b/c_wbf], where [a], [b] and [c] have no slash and [a] parses as
    the endpoint [e], makes [enqueueWritebackFile] return true and send
    the request for reference [c] at endpoint [e]. *)
Theorem enqueue_schema (ParseEndpoint : string → Endpoint + error)
    (sc : storeCache) (a b c : string) (e : Endpoint) :
  free_of "/" a → free_of "/" b → free_of "/" c →
  ParseEndpoint a = inl e →
  enqueueWritebackFile ParseEndpoint (Some sc)
    (dir sc +:+ "/" +:+ a +:+ "/" +:+ b +:+ "/" +:+ c +:+ writebackSuffix)
  = (true, Some (mkRequest (mkLocation e c) None [])).
Proof.
  intros Ha Hb Hc He. unfold enqueueWritebackFile.
  assert (dir sc +:+ "/" +:+ a +:+ "/" +:+ b +:+ "/" +:+ c +:+ writebackSuffix
          = ((dir sc +:+ "/") +:+ a +:+ "/" +:+ b +:+ "/" +:+ c)
            +:+ writebackSuffix) as ->
    by (by rewrite !append_assoc).
  rewrite TrimSuffix_app.
  destruct (String.eqb_spec ((dir sc +:+ "/") +:+ a +:+ "/" +:+ b +:+ "/" +:+ c)
              (((dir sc +:+ "/") +:+ a +:+ "/" +:+ b +:+ "/" +:+ c)
               +:+ writebackSuffix)) as [Heq|_].
  { apply (f_equal String.length) in Heq. rewrite !length_append in Heq.
    unfold writebackSuffix in Heq. simpl in Heq. lia. }
  rewrite TrimPrefix_app.
  assert (Split (a +:+ "/" +:+ b +:+ "/" +:+ c) "/" = [a; b; c]) as ->
    by (by apply Split_three).
  by rewrite He.
Qed.

Lemma enqueue_schema_witness :
  enqueueWritebackFile parse_remote (Some (mkStoreCache "/cache"))
    ("/cache" +:+ "/" +:+ "remote,store.example.com:443" +:+ "/" +:+ "ab"
     +:+ "/" +:+ "abcdef" +:+ writebackSuffix)
  = (true, Some (mkRequest
                   (mkLocation (mkEndpoint 3 "store.example.com:443") "abcdef")
                   None [])).
Proof.
  apply (enqueue_schema parse_remote (mkStoreCache "/cache")
           "remote,store.example.com:443" "ab" "abcdef");
    [by vm_compute | by vm_compute | by vm_compute | reflexivity].
Defined.

(** ** Requests and waiters are kept *)

(* What the handling of an event does to an entry of the index and to the
   waiters of its request. *)
Lemma handle_keeps (a : action) (s s1 : sched) (loc : Location) (r : ptr) :
  ptr_inv s → enabled a s → queued s !! loc = Some r →
  a ≠ Complete r None →
  handle (event_of a) (prepare a s) = Some s1 →
  queued s1 !! loc = Some r ∧ ∃ more, waiters s1 r = waiters s r ++ more.
Proof.
  intros Hinv Hen Hidx Hne Hh.
  pose proof (ptr_inv_prepare a s Hen Hinv) as Hinv0.
  destruct (indexed_heap s loc r Hinv Hidx) as (req & Hreq & Hloc).
  assert (waiters s r = flushChans req) as Hw by (unfold waiters; by rewrite Hreq).
  destruct Hen as [_ Hen]. destruct a as [r0 loc0|r0 er|e0|loc0 c|]; simpl in *.
  - (* Submit *)
    assert (r ≠ r0) as Hr0 by congruence.
    assert (waiters (new_request r0 loc0 s) r = waiters s r) as Hw0.
    { unfold waiters, new_request. sched_simpl. by rewrite lookup_insert_ne. }
    rewrite (on_request_unfold _ r0 (mkRequest loc0 None [])) in Hh
      by apply lookup_insert_eq.
    cbn [Loc] in Hh. change (queued (new_request r0 loc0 s)) with (queued s) in Hh.
    destruct (queued s !! loc0) eqn:Hq0; injection Hh as <-.
    + split; [done|]. exists []. by rewrite app_nil_r.
    + split; [|exists []; by rewrite app_nil_r]. sched_simpl.
      rewrite lookup_insert_ne; [done|]. congruence.
  - (* Complete *)
    set (s0 := set_err r0 er s) in *.
    assert (waiters s0 r = waiters s r) as Hw0.
    { unfold waiters, s0, set_err. sched_simpl.
      destruct (decide (r = r0)) as [->|Hn].
      - rewrite lookup_alter_eq. by destruct (heap s !! r0).
      - by rewrite lookup_alter_ne. }
    destruct (pi_disp s0 Hinv0 r0 Hen) as (l0 & Hl & [epq Hq]).
    unfold loc_of in Hl. destruct (heap s0 !! r0) as [req0|] eqn:Hreq0; [|done].
    injection Hl as <-. destruct (err req0) as [msg|] eqn:Her.
    + rewrite (on_done_failed s0 r0 req0 msg epq Hreq0 Her Hq) in Hh.
      cbv zeta in Hh.
      destruct (_ || _); injection Hh as <-;
        (split; [done|]; exists []; by rewrite app_nil_r).
    + rewrite (on_done_succeeded s0 r0 req0 epq Hreq0 Her Hq) in Hh.
      injection Hh as <-. sched_simpl.
      assert (er = None) as ->.
      { unfold s0, set_err in Hreq0. sched_simpl.
        rewrite lookup_alter_eq in Hreq0.
        destruct (heap s !! r0); simpl in Hreq0; [|done].
        injection Hreq0 as <-. done. }
      assert (r ≠ r0) as Hr0 by congruence.
      split; [|exists []; by rewrite app_nil_r].
      rewrite lookup_delete_ne; [done|]. intros Heq.
      assert (queued s0 !! Loc req0 = Some r0) as Hi0.
      { apply (pi_index s0 Hinv0). split; [by left|].
        unfold loc_of. by rewrite Hreq0. }
      change (queued s0) with (queued s) in Hi0. congruence.
  - (* Retry *)
    unfold on_retry in Hh. sched_simpl.
    destruct (byEndpoint s !! e0) as [epq|]; sched_simpl; [|done].
    destruct (is_dead _); injection Hh as <-;
      (split; [done|]; exists []; by rewrite app_nil_r).
  - (* Flush *)
    unfold on_flush in Hh. destruct (queued s !! loc0) as [r1|] eqn:Hq1.
    + destruct (heap s !! r1) as [req1|] eqn:Hreq1; sched_simpl; [|done].
      injection Hh as <-. split; [done|]. unfold waiters. sched_simpl.
      destruct (decide (r = r1)) as [->|Hn].
      * rewrite lookup_insert_eq, Hreq1. by exists [c].
      * rewrite lookup_insert_ne by done. exists []. by rewrite app_nil_r.
    + injection Hh as <-. split; [done|]. exists []. by rewrite app_nil_r.
  - injection Hh as <-. split; [done|]. exists []. by rewrite app_nil_r.
Qed.

(** X15: a request stays in the index, and the channels waiting on it
    stay with it, until it is written back: whatever event a turn of the
    scheduler handles, other than the completion of that request without
    error, the location is still in the index with the same request, and
    the waiters of the request are those it had, with the new ones behind
    them. *)
Theorem pending_until_success (a : action) (sws : list sweep) (s s' : sched)
    (loc : Location) (r : ptr) :
  reachable s → enabled a s → queued s !! loc = Some r →
  a ≠ Complete r None →
  turn a sws s = Some s' →
  queued s' !! loc = Some r ∧ ∃ more, waiters s' r = waiters s r ++ more.
Proof.
  intros Hreach Hen Hidx Hne Ht.
  pose proof (reachable_ptr_inv s Hreach) as Hinv.
  destruct (turn_handle a sws s s' Ht) as (s1 & Hh & Hheap & Hq & _).
  destruct (handle_keeps a s s1 loc r Hinv Hen Hidx Hne Hh) as [H1 H2].
  rewrite Hq. split; [done|]. unfold waiters in *. by rewrite Hheap.
Qed.

Lemma pending_until_success_witness :
  queued
    (default init
       (turn (Complete 2%nat (Some "connection refused")) [[(ep1, true)]]
          waiting1))
    !! loc2 = Some 2%nat.
Proof.
  apply (pending_until_success (Complete 2%nat (Some "connection refused"))
           [[(ep1, true)]] waiting1).
  - apply waiting1_reachable.
  - apply (bool_decide_unpack _). by vm_compute.
  - by vm_compute.
  - done.
  - apply default_Some, (bool_decide_unpack _). by vm_compute.
Defined.

(** ** Wrapped errors *)

(** X16: [isTimeout] looks anywhere in the message: an error that is timed
    out stays so when text is put before and after its message, as a
    caller does that wraps the error. *)
Theorem isTimeout_wrapped (e pre post : string) :
  isTimeout e = true → isTimeout (pre +:+ e +:+ post) = true.
Proof.
  rewrite !isTimeout_spec. unfold substring_of.
  intros [(a & b & ->)|(a & b & ->)]; [left | right];
    exists (pre +:+ a), (b +:+ post); by rewrite !append_assoc.
Qed.

Lemma isTimeout_wrapped_witness :
  isTimeout ("store/storecache.writer: " +:+ "Put: timeout" +:+ " (retrying)")
  = true.
Proof. apply isTimeout_wrapped. reflexivity. Defined.
